(** * iSPD exa-engine (ROSS): workload generators and start-up check

    A shallow embedding of [include/ispd/workload/workload.hpp] and of the
    user-registration check of [src/main.cpp].

    - a C++ [double] is a primitive binary64 [float]; its arithmetic is the
      IEEE 754 round-to-nearest-even arithmetic of [PrimFloat], specified
      by [SpecFloat] through the [FloatAxioms] of the Standard Library;
    - a C++ [unsigned] is a [Z] in [0, 2^32) with the wrap-around written out;
    - the ROSS stream [tw_rng_stream] is threaded explicitly: every member
      function that receives [tw_rng_stream *rng] returns the new stream;
    - [ispd_error] ends the run: fallible code returns an [outcome]. *)

From Stdlib Require Import ZArith Bool List String Lia.
From Stdlib Require Import Reals Lra Floats.
Import ListNotations.

Local Open Scope Z_scope.

(** ** [unsigned]: 32-bit wrap-around arithmetic *)

Definition unsigned := Z.

Definition UINT_MAX : Z := 4294967295.

Definition wrap (z : Z) : unsigned := z mod 2 ^ 32.

(** [x--] and [x++] on an [unsigned] lvalue (the new value). *)
Definition decr (x : unsigned) : unsigned := wrap (x - 1).
Definition incr (x : unsigned) : unsigned := wrap (x + 1).

(** The values an [unsigned] variable can hold. *)
Definition is_unsigned (x : Z) : Prop := 0 <= x < 2 ^ 32.

(** ** [ispd::log] *)

(** What a fallible step yields: a value, or the diagnostic of the
    [ispd_error] that ended the process. *)
Inductive outcome (A : Type) : Type :=
| Ok (a : A)
| Fatal (diagnostic : string).

Arguments Ok {A} a.
Arguments Fatal {A} diagnostic.

(** Modelled from the spec: [ispd_error], a macro of [ispd/log/log.hpp]
    (not among the sources).  It prints its diagnostic and aborts the
    process immediately; nothing after it runs.  The diagnostic kept here
    is the format string of the call. *)
Definition ispd_error {A : Type} (format : string) : outcome A := Fatal format.

Definition succeeds {A : Type} (o : outcome A) : bool :=
  match o with Ok _ => true | Fatal _ => false end.

(** ** The reversible random stream of ROSS *)

(** The two primitives of [ross.h] the workloads call on a
    [tw_rng_stream *]: [tw_rand_unif] draws a uniform and advances the
    stream, [tw_rand_reverse_unif] steps the stream back by one draw. *)
Class tw_rng_stream (S : Type) : Type := {
  tw_rand_unif : S -> float * S;
  tw_rand_reverse_unif : S -> S
}.

(** The contract of the stream: a reverse draw undoes the last draw. *)
Class Reversible (S : Type) `{tw_rng_stream S} : Prop :=
  reverse_unif_unif : forall s : S, tw_rand_reverse_unif (snd (tw_rand_unif s)) = s.

(** A stream as a two-way tape of uniforms with a read position. *)
Record tape : Type := {
  cells : Z -> float;
  position : Z
}.

#[export] Instance tape_stream : tw_rng_stream tape := {
  tw_rand_unif t :=
    (cells t (position t), {| cells := cells t; position := position t + 1 |});
  tw_rand_reverse_unif t := {| cells := cells t; position := position t - 1 |}
}.

(** A stream that records the primitives called on it. *)
Inductive rng_call : Type := call_unif | call_reverse_unif.

Record logged (S : Type) : Type := {
  inner : S;
  calls : list rng_call
}.

Arguments inner {S} l.
Arguments calls {S} l.

Definition fresh {S : Type} (s : S) : logged S := {| inner := s; calls := [] |}.

#[export] Instance logged_stream {S : Type} `{tw_rng_stream S} : tw_rng_stream (logged S) := {
  tw_rand_unif l :=
    (fst (tw_rand_unif (inner l)),
     {| inner := snd (tw_rand_unif (inner l)); calls := (calls l ++ [call_unif])%list |});
  tw_rand_reverse_unif l :=
    {| inner := tw_rand_reverse_unif (inner l);
       calls := (calls l ++ [call_reverse_unif])%list |}
}.

(** ** [namespace ispd::workload] *)

(** What [generateWorkload] leaves behind: the object, the stream, and the
    two reference parameters [procSize] and [commSize]. *)
Record generated (W S : Type) : Type := {
  gen_this : W;
  gen_rng : S;
  procSize : float;
  commSize : float
}.

Arguments gen_this {W S} g.
Arguments gen_rng {W S} g.
Arguments procSize {W S} g.
Arguments commSize {W S} g.

(** *** [class ConstantWorkload : public Workload] *)
Module ConstantWorkload.

Record t : Type := {
  m_RemainingTasks : unsigned;
  m_ConstantProcSize : float;
  m_ConstantCommSize : float
}.

(** The constructor; [ispd_debug] only prints. *)
Definition new (remainingTasks : unsigned)
    (constantProcSize constantCommSize : float) : outcome t :=
  if (constantProcSize <=? 0)%float then
    ispd_error "Constant processing size must be positive (Specified constant processing size: %lf)."
  else if (constantCommSize <=? 0)%float then
    ispd_error "Constant communication size must be positive (Specified constant communication size: %lf)."
  else
    Ok {| m_RemainingTasks := remainingTasks;
          m_ConstantProcSize := constantProcSize;
          m_ConstantCommSize := constantCommSize |}.

Definition generateWorkload {S : Type} `{tw_rng_stream S} (this : t) (rng : S)
    : generated t S :=
  {| gen_this := {| m_RemainingTasks := decr (m_RemainingTasks this);
                    m_ConstantProcSize := m_ConstantProcSize this;
                    m_ConstantCommSize := m_ConstantCommSize this |};
     gen_rng := rng;
     procSize := m_ConstantProcSize this;
     commSize := m_ConstantCommSize this |}.

Definition reverseGenerateWorkload {S : Type} `{tw_rng_stream S} (this : t) (rng : S)
    : t * S :=
  ({| m_RemainingTasks := incr (m_RemainingTasks this);
      m_ConstantProcSize := m_ConstantProcSize this;
      m_ConstantCommSize := m_ConstantCommSize this |},
   rng).

Definition getRemainingTasks (this : t) : unsigned := m_RemainingTasks this.

End ConstantWorkload.

(** *** [class UniformWorkload : public Workload] *)
Module UniformWorkload.

Record t : Type := {
  m_RemainingTasks : unsigned;
  m_MinProcSize : float;
  m_MaxProcSize : float;
  m_MinCommSize : float;
  m_MaxCommSize : float
}.

Definition new (remainingTasks : unsigned)
    (minProcSize maxProcSize minCommSize maxCommSize : float) : outcome t :=
  if (minProcSize <=? 0)%float then
    ispd_error "Minimum processing size must be positive (Specified minimum processing size: %lf)."
  else if (maxProcSize <=? 0)%float then
    ispd_error "Maximum processing size must be positive (Specified maximum processing size: %lf)."
  else if (minCommSize <=? 0)%float then
    ispd_error "Minimum communication size must be positive (Specified minimum communication size: %lf)."
  else if (maxCommSize <=? 0)%float then
    ispd_error "Maximum communication size must be positive (Specified maximum communication size: %lf)."
  else
    Ok {| m_RemainingTasks := remainingTasks;
          m_MinProcSize := minProcSize;
          m_MaxProcSize := maxProcSize;
          m_MinCommSize := minCommSize;
          m_MaxCommSize := maxCommSize |}.

(** [lo + u * (hi - lo)], evaluated in binary64 as the source writes it. *)
Definition scale (lo hi u : float) : float := (lo + u * (hi - lo))%float.

Definition generateWorkload {S : Type} `{tw_rng_stream S} (this : t) (rng : S)
    : generated t S :=
  let (u1, rng1) := tw_rand_unif rng in
  let p := scale (m_MinProcSize this) (m_MaxProcSize this) u1 in
  let (u2, rng2) := tw_rand_unif rng1 in
  let c := scale (m_MinCommSize this) (m_MaxCommSize this) u2 in
  {| gen_this := {| m_RemainingTasks := decr (m_RemainingTasks this);
                    m_MinProcSize := m_MinProcSize this;
                    m_MaxProcSize := m_MaxProcSize this;
                    m_MinCommSize := m_MinCommSize this;
                    m_MaxCommSize := m_MaxCommSize this |};
     gen_rng := rng2;
     procSize := p;
     commSize := c |}.

Definition reverseGenerateWorkload {S : Type} `{tw_rng_stream S} (this : t) (rng : S)
    : t * S :=
  let rng1 := tw_rand_reverse_unif rng in
  let rng2 := tw_rand_reverse_unif rng1 in
  ({| m_RemainingTasks := incr (m_RemainingTasks this);
      m_MinProcSize := m_MinProcSize this;
      m_MaxProcSize := m_MaxProcSize this;
      m_MinCommSize := m_MinCommSize this;
      m_MaxCommSize := m_MaxCommSize this |},
   rng2).

Definition getRemainingTasks (this : t) : unsigned := m_RemainingTasks this.

End UniformWorkload.

(** *** [class Workload]: the abstract base, as the sum of its variants *)
Module Workload.

Inductive t : Type :=
| Constant (w : ConstantWorkload.t)
| Uniform (w : UniformWorkload.t).

(** Virtual dispatch. *)
Definition generateWorkload {S : Type} `{tw_rng_stream S} (this : t) (rng : S)
    : generated t S :=
  match this with
  | Constant w =>
      let g := ConstantWorkload.generateWorkload w rng in
      {| gen_this := Constant (gen_this g); gen_rng := gen_rng g;
         procSize := procSize g; commSize := commSize g |}
  | Uniform w =>
      let g := UniformWorkload.generateWorkload w rng in
      {| gen_this := Uniform (gen_this g); gen_rng := gen_rng g;
         procSize := procSize g; commSize := commSize g |}
  end.

Definition reverseGenerateWorkload {S : Type} `{tw_rng_stream S} (this : t) (rng : S)
    : t * S :=
  match this with
  | Constant w =>
      let (w', rng') := ConstantWorkload.reverseGenerateWorkload w rng in
      (Constant w', rng')
  | Uniform w =>
      let (w', rng') := UniformWorkload.reverseGenerateWorkload w rng in
      (Uniform w', rng')
  end.

Definition getRemainingTasks (this : t) : unsigned :=
  match this with
  | Constant w => ConstantWorkload.getRemainingTasks w
  | Uniform w => UniformWorkload.getRemainingTasks w
  end.

(** The policy parameters of a workload: everything but the counter. *)
Definition parameters (this : t) : list float :=
  match this with
  | Constant w =>
      [ConstantWorkload.m_ConstantProcSize w; ConstantWorkload.m_ConstantCommSize w]
  | Uniform w =>
      [UniformWorkload.m_MinProcSize w; UniformWorkload.m_MaxProcSize w;
       UniformWorkload.m_MinCommSize w; UniformWorkload.m_MaxCommSize w]
  end.

Definition same_variant (a b : t) : bool :=
  match a, b with
  | Constant _, Constant _ | Uniform _, Uniform _ => true
  | _, _ => false
  end.

End Workload.

(** The helpers [constant] and [uniform] allocate with [new]. *)
Definition constant (remainingTasks : unsigned) (constantProcSize constantCommSize : float)
    : outcome ConstantWorkload.t :=
  ConstantWorkload.new remainingTasks constantProcSize constantCommSize.

Definition uniform (remainingTasks : unsigned)
    (minProcSize maxProcSize minCommSize maxCommSize : float) : outcome UniformWorkload.t :=
  UniformWorkload.new remainingTasks minProcSize maxProcSize minCommSize maxCommSize.

(** ** [src/main.cpp]: the check on the registered users *)
Module Main.

(** Modelled from the spec: the users registered with [ispd::this_model]
    ([ispd/model/builder.hpp] is not among the sources).  [registerUser]
    adds a user to the model, [getUsers] returns the registered users. *)
Record User : Type := {
  user_name : string;
  user_energy_limit : float
}.

Definition registerUser (name : string) (limit : float) (users : list User)
    : list User :=
  (users ++ [{| user_name := name; user_energy_limit := limit |}])%list.

Definition size (users : list User) : Z := Z.of_nat (List.length users).

(** What [main] does from the check on: set up the logical processes
    (one step here: it calls only [tw_define_lps] and [tw_lp_settype]),
    run the simulation, report, and return. *)
Inductive step : Type :=
| set_up_logical_processes
| tw_run
| reportNodeMetrics
| tw_end
| reportGlobalMetrics.

Inductive exit_status : Type :=
| returned (code : Z)
| aborted (diagnostic : string).

Record run : Type := {
  performed : list step;
  status : exit_status
}.

(** [main] from the comment "Checks if no user has been registered" to
    its [return 0], given [ispd::this_model::getUsers()]. *)
Definition main_from_user_check (getUsers : list User) : run :=
  match (if size getUsers =? 0
         then ispd_error "At least one user must be registered."
         else Ok tt) with
  | Fatal diagnostic => {| performed := []; status := aborted diagnostic |}
  | Ok _ =>
      {| performed := [set_up_logical_processes; tw_run; reportNodeMetrics;
                       tw_end; reportGlobalMetrics];
         status := returned 0 |}
  end.

Definition step_eqb (a b : step) : bool :=
  match a, b with
  | set_up_logical_processes, set_up_logical_processes
  | tw_run, tw_run
  | reportNodeMetrics, reportNodeMetrics
  | tw_end, tw_end
  | reportGlobalMetrics, reportGlobalMetrics => true
  | _, _ => false
  end.

Definition simulation_ran (r : run) : bool := existsb (step_eqb tw_run) (performed r).

End Main.

(** ** Sequences of calls on one workload object *)

Inductive workload_call : Type := call_generate | call_reverse.

Fixpoint perform {S : Type} `{tw_rng_stream S} (cs : list workload_call)
    (w : Workload.t) (rng : S) : Workload.t * S :=
  match cs with
  | [] => (w, rng)
  | call_generate :: cs' =>
      let g := Workload.generateWorkload w rng in
      perform cs' (gen_this g) (gen_rng g)
  | call_reverse :: cs' =>
      let (w', rng') := Workload.reverseGenerateWorkload w rng in
      perform cs' w' rng'
  end.

(** ** Runs of generations and of reversals *)

(** [k] calls of [generateWorkload] in a row: the sizes handed out, in
    order, and the object and stream left. *)
Fixpoint generate_n {S : Type} `{tw_rng_stream S} (k : nat) (w : Workload.t) (rng : S)
    : list (float * float) * (Workload.t * S) :=
  match k with
  | O => ([], (w, rng))
  | Datatypes.S k' =>
      let g := Workload.generateWorkload w rng in
      let (sizes, left) := generate_n k' (gen_this g) (gen_rng g) in
      ((procSize g, commSize g) :: sizes, left)
  end.

(** [k] calls of [reverseGenerateWorkload] in a row. *)
Fixpoint reverse_n {S : Type} `{tw_rng_stream S} (k : nat) (w : Workload.t) (rng : S)
    : Workload.t * S :=
  match k with
  | O => (w, rng)
  | Datatypes.S k' =>
      let (w', rng') := Workload.reverseGenerateWorkload w rng in
      reverse_n k' w' rng'
  end.

(** ** [src/main.cpp]: registration of the star model and types of the
    logical processes *)
Module Star.

(** [tw_lpid] is a 64-bit unsigned integer. *)
Definition wrap64 (z : Z) : Z := z mod 2 ^ 64.

(** The entries of [lps_type], in the order of the table; the sixth
    entry, [{0}], ends it. *)
Inductive lp_type : Type := master | link | machine | Switch | dummy.

Definition lps_type (index : Z) : option lp_type :=
  match index with
  | 0 => Some master
  | 1 => Some link
  | 2 => Some machine
  | 3 => Some Switch
  | 4 => Some dummy
  | _ => None
  end.

(** The calls [main] makes on the model builder and on the kernel.  Of
    [registerMaster], [registerLink] and [registerMachine] the identifiers
    are kept; their other arguments are the same constants in every call.
    [tw_lp_settype lp index] stands for [tw_lp_settype(lp, &lps_type[index])]. *)
Inductive call : Type :=
| registerUser (name : string) (limit : float)
| registerMaster (id : Z) (slaves : list Z)
| registerLink (id from to : Z)
| registerMachine (id : Z)
| tw_define_lps (nlp : Z)
| tw_lp_settype (lp : Z) (index : Z)
| ispd_info_dummies (dummy_count : Z) (node : Z).

(** [highest_machine_id = g_star_machine_amount * 2], an [unsigned]
    product widened to [tw_lpid]; [highest_link_id] is one less, in
    [tw_lpid]. *)
Definition highest_machine_id (machine_amount : unsigned) : Z := wrap (machine_amount * 2).

Definition highest_link_id (machine_amount : unsigned) : Z :=
  wrap64 (highest_machine_id machine_amount - 1).

(** [nlp = g_star_machine_amount * 2 + 1], in [unsigned]. *)
Definition nlp (machine_amount : unsigned) : unsigned := wrap (wrap (machine_amount * 2) + 1).

(** The loops.  Each takes the number of iterations it may still make and
    yields [None] when that number does not let it reach the end. *)

(** [for (machine_id = 2; machine_id <= highest_machine_id; machine_id += 2)
      slaves.emplace_back(machine_id);] *)
Fixpoint collect_slaves (fuel : nat) (machine_id highest : Z) : option (list Z) :=
  match fuel with
  | O => None
  | S fuel' =>
      if machine_id <=? highest then
        match collect_slaves fuel' (wrap64 (machine_id + 2)) highest with
        | Some slaves => Some (machine_id :: slaves)
        | None => None
        end
      else Some []
  end.

(** [for (link_id = 1; link_id <= highest_link_id; link_id += 2)
      registerLink(link_id, 0, link_id + 1, ...);] *)
Fixpoint register_links (fuel : nat) (link_id highest : Z) : option (list call) :=
  match fuel with
  | O => None
  | S fuel' =>
      if link_id <=? highest then
        match register_links fuel' (wrap64 (link_id + 2)) highest with
        | Some cs => Some (registerLink link_id 0 (wrap64 (link_id + 1)) :: cs)
        | None => None
        end
      else Some []
  end.

(** [for (machine_id = 2; machine_id <= highest_machine_id; machine_id += 2)
      registerMachine(machine_id, ...);] *)
Fixpoint register_machines (fuel : nat) (machine_id highest : Z) : option (list call) :=
  match fuel with
  | O => None
  | S fuel' =>
      if machine_id <=? highest then
        match register_machines fuel' (wrap64 (machine_id + 2)) highest with
        | Some cs => Some (registerMachine machine_id :: cs)
        | None => None
        end
      else Some []
  end.

(** [main] from "Register the user" to the last [registerMachine]. *)
Definition registration (fuel : nat) (machine_amount : unsigned) : option (list call) :=
  match collect_slaves fuel 2 (highest_machine_id machine_amount) with
  | None => None
  | Some slaves =>
      match register_links fuel 1 (highest_link_id machine_amount) with
      | None => None
      | Some links =>
          match register_machines fuel 2 (highest_machine_id machine_amount) with
          | None => None
          | Some machines =>
              Some (registerUser "User1" 100 :: registerMaster 0 slaves :: links ++ machines)%list
          end
      end
  end.

(** The sequential branch:
    [for (unsigned i = 1; i < nlp; i += 2)
       { tw_lp_settype(i, &lps_type[1]); tw_lp_settype(i + 1, &lps_type[2]); }] *)
Fixpoint type_pairs (fuel : nat) (i nlp : unsigned) : option (list call) :=
  match fuel with
  | O => None
  | S fuel' =>
      if i <? nlp then
        match type_pairs fuel' (wrap (i + 2)) nlp with
        | Some cs => Some (tw_lp_settype i 1 :: tw_lp_settype (wrap (i + 1)) 2 :: cs)
        | None => None
        end
      else Some []
  end.

Definition sequential (fuel : nat) (machine_amount : unsigned) : option (list call) :=
  match type_pairs fuel 1 (nlp machine_amount) with
  | Some cs => Some (tw_define_lps (nlp machine_amount) :: tw_lp_settype 0 0 :: cs)
  | None => None
  end.

(** The distributed branch.  The body of both loops, with the test
    [i & 1] or [current_gid & 1] as [parity]:
    [if (current_gid > highest_machine_id)
       { tw_lp_settype(i, &lps_type[4]); dummy_count++; current_gid++; continue; }
     if (parity & 1) tw_lp_settype(i, &lps_type[1]);
     else tw_lp_settype(i, &lps_type[2]);
     current_gid++;] *)
Definition type_one (i current_gid highest parity : Z) : call :=
  if highest <? current_gid then tw_lp_settype i 4
  else if Z.land parity 1 =? 0 then tw_lp_settype i 2
  else tw_lp_settype i 1.

(** [for (unsigned i = ...; i < nlp_per_pe; i++)], on node 0 ([by_index])
    and on the other nodes. *)
Fixpoint type_node (by_index : bool) (fuel : nat) (i : unsigned) (current_gid : Z)
    (dummy_count : unsigned) (nlp_per_pe highest : Z) : option (list call * unsigned) :=
  match fuel with
  | O => None
  | S fuel' =>
      if i <? nlp_per_pe then
        match type_node by_index fuel' (wrap (i + 1)) (wrap64 (current_gid + 1))
                (if highest <? current_gid then wrap (dummy_count + 1) else dummy_count)
                nlp_per_pe highest with
        | Some (cs, dummies) =>
            Some (type_one i current_gid highest (if by_index then i else current_gid) :: cs,
                  dummies)
        | None => None
        end
      else Some ([], dummy_count)
  end.

(** The distributed branch on node [g_tw_mynode], given [nlp_per_pe], the
    value of [(unsigned)ceil((double)nlp / tw_nnodes())].  The product
    [g_tw_mynode * nlp_per_pe] is taken in 64 bits, the width of [tw_lpid]. *)
Definition distributed (fuel : nat) (machine_amount : unsigned) (nlp_per_pe : unsigned)
    (g_tw_mynode : Z) : option (list call) :=
  let current_gid := wrap64 (g_tw_mynode * nlp_per_pe) in
  let highest := highest_machine_id machine_amount in
  if g_tw_mynode =? 0 then
    match type_node true fuel 1 current_gid 0 nlp_per_pe highest with
    | Some (cs, dummies) =>
        Some (tw_define_lps nlp_per_pe :: tw_lp_settype 0 0 :: cs
              ++ [ispd_info_dummies dummies g_tw_mynode])%list
    | None => None
    end
  else
    match type_node false fuel 0 current_gid 0 nlp_per_pe highest with
    | Some (cs, dummies) =>
        Some (tw_define_lps nlp_per_pe :: cs ++ [ispd_info_dummies dummies g_tw_mynode])%list
    | None => None
    end.

(** [mapping(gid) = (tw_peid)gid / g_tw_nlp], for a [gid] the cast keeps
    (below [2^32] it does, whatever the width of [tw_peid]); the division
    is undefined for [g_tw_nlp = 0]. *)
Definition mapping (g_tw_nlp gid : Z) : option Z :=
  if g_tw_nlp =? 0 then None else Some (gid / g_tw_nlp).

(** The type the calls leave on logical process [lp]: that of the last
    [tw_lp_settype] on it. *)
Fixpoint type_at (cs : list call) (lp : Z) : option lp_type :=
  match cs with
  | [] => None
  | c :: cs' =>
      match type_at cs' lp with
      | Some t => Some t
      | None =>
          match c with
          | tw_lp_settype lp' index => if lp' =? lp then lps_type index else None
          | _ => None
          end
      end
  end.

(** The logical processes typed, in the order of the calls. *)
Fixpoint typed (cs : list call) : list Z :=
  match cs with
  | [] => []
  | tw_lp_settype lp _ :: cs' => lp :: typed cs'
  | _ :: cs' => typed cs'
  end.

(** The type the star model gives an identifier. *)
Definition star_type (id : Z) : lp_type :=
  if id =? 0 then master else if Z.odd id then link else machine.

(** [main] between the user check and [tw_run]:
    [if (tw_nnodes() > 1) { distributed } else { sequential }]. *)
Definition set_up (fuel : nat) (machine_amount : unsigned) (tw_nnodes : Z)
    (nlp_per_pe : unsigned) (g_tw_mynode : Z) : option (list call) :=
  if 1 <? tw_nnodes then distributed fuel machine_amount nlp_per_pe g_tw_mynode
  else sequential fuel machine_amount.

(** The service registered under an identifier: that of the last
    registration with it. *)
Fixpoint registered (cs : list call) (id : Z) : option lp_type :=
  match cs with
  | [] => None
  | c :: cs' =>
      match registered cs' id with
      | Some t => Some t
      | None =>
          match c with
          | registerMaster id' _ => if id' =? id then Some master else None
          | registerLink id' _ _ => if id' =? id then Some link else None
          | registerMachine id' => if id' =? id then Some machine else None
          | _ => None
          end
      end
  end.

(** [tw_lp_settype] on [len] consecutive logical processes from [lp] on,
    with the entry [index lp] of [lps_type]. *)
Fixpoint settypes (index : Z -> Z) (lp : Z) (len : nat) : list call :=
  match len with
  | O => []
  | S len' => tw_lp_settype lp (index lp) :: settypes index (lp + 1) len'
  end.

(** The identifiers [from], [from + step], ... ([len] of them). *)
Fixpoint ids (from step : Z) (len : nat) : list Z :=
  match len with
  | O => []
  | S len' => from :: ids (from + step) step len'
  end.

(** The entry of [lps_type] the sequential loop gives a logical process. *)
Definition parity_index (lp : Z) : Z := if Z.odd lp then 1 else 2.

(** The entry of [lps_type] the body of the distributed loops picks for the
    logical process [lp], its global identifier being [base + lp]. *)
Definition node_index (by_index : bool) (base highest lp : Z) : Z :=
  if highest <? base + lp then 4
  else if Z.land (if by_index then lp else base + lp) 1 =? 0 then 2
  else 1.

(** How many of the [len] global identifiers from [gid] on are above
    [highest]. *)
Definition above (gid : Z) (len : nat) (highest : Z) : Z :=
  Z.max 0 (Z.min (Z.of_nat len) (gid + Z.of_nat len - 1 - highest)).

End Star.


(** ** Binary floating point: real values and rounding

    What the proofs about [lo + u * (hi - lo)] are stated with.  The
    operations themselves are those of [SpecFloat], which [FloatAxioms]
    gives as the meaning of the primitive ones. *)

(** [2^e] as a real. *)
Definition bpow (e : Z) : R := powerRZ 2 e.

(** The real value [m * 2^e] of a mantissa and an exponent. *)
Definition F2R (m e : Z) : R := (IZR m * bpow e)%R.

(** [shifted M j mrs]: [mrs] is [M >= 0] shifted right by [j] bits, its
    round and sticky bits locating the bits shifted out against the half. *)
Definition shifted (M j : Z) (mrs : shr_record) : Prop :=
  exists rho : Z,
    M = shr_m mrs * 2 ^ j + rho /\ 0 <= rho < 2 ^ j /\ 0 <= shr_m mrs /\
    shr_r mrs = (2 ^ j <=? 2 * rho) /\
    shr_s mrs = negb (rho =? 0) && negb (2 * rho =? 2 ^ j).

(** [v] is at least as close to [q] as every positive finite float of the
    format. *)
Definition nearest (prec emax : Z) (v q : R) : Prop :=
  forall (m : positive) (e : Z),
    bounded prec emax m e = true ->
    (Rabs (v - q) <= Rabs (F2R (Zpos m) e - q))%R.

(** What a rounding of a non-negative real returned, against the real [v]
    it stands for. *)
Definition rounds_to (emax : Z) (x : spec_float) (v : R) : Prop :=
  match x with
  | S754_zero s => s = false /\ v = 0%R
  | S754_finite s m e => s = false /\ v = F2R (Zpos m) e
  | S754_infinity s => s = false /\ (bpow emax <= v)%R
  | S754_nan => False
  end.

(** A draw in [[0, 1)]: a zero, or a positive finite float below one. *)
Definition in_unit (prec emax : Z) (u : spec_float) : Prop :=
  match u with
  | S754_zero _ => True
  | S754_finite false m e => bounded prec emax m e = true /\ (F2R (Zpos m) e < 1)%R
  | _ => False
  end.

(** ** Concrete streams and workloads *)

Definition zeros_tape : tape := {| cells := fun _ => 0%float; position := 0 |}.

Definition quarter_tape : tape := {| cells := fun _ => 0.25%float; position := 0 |}.

Definition ones_tape : tape := {| cells := fun _ => 1%float; position := 0 |}.

Definition some_uniform : UniformWorkload.t :=
  {| UniformWorkload.m_RemainingTasks := 3;
     UniformWorkload.m_MinProcSize := 10;
     UniformWorkload.m_MaxProcSize := 20;
     UniformWorkload.m_MinCommSize := 1;
     UniformWorkload.m_MaxCommSize := 5 |}.

Definition some_constant : ConstantWorkload.t :=
  {| ConstantWorkload.m_RemainingTasks := 3;
     ConstantWorkload.m_ConstantProcSize := 1000;
     ConstantWorkload.m_ConstantCommSize := 80 |}.

(** Bounds [3 * 2^-53 <= 1 + 3 * 2^-52], one unit in the last place apart
    from a tie in both roundings of [lo + 1 * (hi - lo)]. *)
Definition tight_uniform : UniformWorkload.t :=
  {| UniformWorkload.m_RemainingTasks := 1;
     UniformWorkload.m_MinProcSize := 0x1.8p-52;
     UniformWorkload.m_MaxProcSize := 0x1.0000000000003p+0;
     UniformWorkload.m_MinCommSize := 0x1.8p-52;
     UniformWorkload.m_MaxCommSize := 0x1.0000000000003p+0 |}.

(** * Properties *)

(** ** The counter *)

Lemma incr_decr (n : unsigned) : is_unsigned n -> incr (decr n) = n.
Proof.
  unfold is_unsigned, incr, decr, wrap. intros Hn.
  rewrite Zplus_mod_idemp_l.
  replace (n - 1 + 1) with n by lia.
  apply Z.mod_small. exact Hn.
Qed.

Lemma decr_positive (n : unsigned) : 0 < n < 2 ^ 32 -> decr n = n - 1.
Proof.
  unfold decr, wrap. intros Hn. apply Z.mod_small. lia.
Qed.

(** ** The stream *)

#[export] Instance tape_reversible : Reversible tape.
Proof.
  intros [c p]. unfold tw_rand_reverse_unif, tw_rand_unif. simpl.
  f_equal. lia.
Qed.

Section Streams.

Context {S : Type} `{tw_rng_stream S}.

Lemma uniform_generate_unfold (w : UniformWorkload.t) (rng : S) :
  UniformWorkload.generateWorkload w rng =
  {| gen_this :=
       {| UniformWorkload.m_RemainingTasks := decr (UniformWorkload.m_RemainingTasks w);
          UniformWorkload.m_MinProcSize := UniformWorkload.m_MinProcSize w;
          UniformWorkload.m_MaxProcSize := UniformWorkload.m_MaxProcSize w;
          UniformWorkload.m_MinCommSize := UniformWorkload.m_MinCommSize w;
          UniformWorkload.m_MaxCommSize := UniformWorkload.m_MaxCommSize w |};
     gen_rng := snd (tw_rand_unif (snd (tw_rand_unif rng)));
     procSize :=
       UniformWorkload.scale (UniformWorkload.m_MinProcSize w)
         (UniformWorkload.m_MaxProcSize w) (fst (tw_rand_unif rng));
     commSize :=
       UniformWorkload.scale (UniformWorkload.m_MinCommSize w)
         (UniformWorkload.m_MaxCommSize w)
         (fst (tw_rand_unif (snd (tw_rand_unif rng)))) |}.
Proof.
  unfold UniformWorkload.generateWorkload.
  destruct (tw_rand_unif rng) as [u1 rng1]. simpl.
  destruct (tw_rand_unif rng1) as [u2 rng2]. reflexivity.
Qed.

Lemma generate_parameters (w : Workload.t) (rng : S) :
  Workload.parameters (gen_this (Workload.generateWorkload w rng)) =
  Workload.parameters w.
Proof.
  destruct w as [w | w]; simpl; [reflexivity |].
  rewrite uniform_generate_unfold. reflexivity.
Qed.

Lemma reverse_parameters (w : Workload.t) (rng : S) :
  Workload.parameters (fst (Workload.reverseGenerateWorkload w rng)) =
  Workload.parameters w.
Proof. destruct w as [w | w]; reflexivity. Qed.

Lemma generate_same_variant (w : Workload.t) (rng : S) :
  Workload.same_variant (gen_this (Workload.generateWorkload w rng)) w = true.
Proof. destruct w as [w | w]; reflexivity. Qed.

Lemma reverse_same_variant (w : Workload.t) (rng : S) :
  Workload.same_variant (fst (Workload.reverseGenerateWorkload w rng)) w = true.
Proof. destruct w as [w | w]; reflexivity. Qed.

End Streams.


(** ** Binary floating point

    Round-to-nearest of [SpecFloat], from its definition: the result of an
    operation on positive finite floats is a float nearest to the exact
    result.  Generic in the precision and the maximal exponent. *)

(** Goals and hypotheses about [Rabs] of linear terms: split on the signs. *)
Ltac abs_cases := unfold Rabs in *; repeat destruct Rcase_abs; lra.

(** *** Powers of two *)

Lemma bpow_add (a b : Z) : bpow (a + b) = (bpow a * bpow b)%R.
Proof. unfold bpow. apply powerRZ_add. lra. Qed.

Lemma bpow_pos (e : Z) : (0 < bpow e)%R.
Proof. unfold bpow. apply powerRZ_lt. lra. Qed.

Lemma bpow_0 : bpow 0 = 1%R.
Proof. reflexivity. Qed.

Lemma bpow_1 : bpow 1 = 2%R.
Proof. unfold bpow. simpl. lra. Qed.

Lemma bpow_succ (e : Z) : bpow (e + 1) = (2 * bpow e)%R.
Proof. rewrite bpow_add, bpow_1. lra. Qed.

Lemma bpow_pred (e : Z) : bpow e = (2 * bpow (e - 1))%R.
Proof. rewrite <- bpow_succ. f_equal. lia. Qed.

Lemma bpow_IZR (n : Z) : 0 <= n -> bpow n = IZR (2 ^ n).
Proof.
  intros Hn. pattern n. apply natlike_ind; [reflexivity | | exact Hn].
  intros x Hx IH. unfold Z.succ.
  rewrite bpow_succ, IH, Z.pow_add_r, mult_IZR by lia.
  change (2 ^ 1) with 2. lra.
Qed.

Lemma bpow_le (a b : Z) : a <= b -> (bpow a <= bpow b)%R.
Proof.
  intros Hab. replace b with (a + (b - a)) by lia.
  rewrite bpow_add, (bpow_IZR (b - a)) by lia.
  assert (Hpw : 1 <= 2 ^ (b - a)) by (apply Z.lt_pred_le, Z.pow_pos_nonneg; lia).
  apply IZR_le in Hpw. pose proof (bpow_pos a). nra.
Qed.

(** *** Number of binary digits *)

Lemma digits2_pos_bounds (p : positive) :
  2 ^ (Zpos (digits2_pos p) - 1) <= Zpos p < 2 ^ Zpos (digits2_pos p).
Proof.
  induction p as [p IH | p IH |]; simpl digits2_pos.
  - rewrite Pos2Z.inj_succ.
    replace (Z.succ (Zpos (digits2_pos p)) - 1) with (Z.succ (Zpos (digits2_pos p) - 1)) by lia.
    rewrite !Z.pow_succ_r by lia. lia.
  - rewrite Pos2Z.inj_succ.
    replace (Z.succ (Zpos (digits2_pos p)) - 1) with (Z.succ (Zpos (digits2_pos p) - 1)) by lia.
    rewrite !Z.pow_succ_r by lia. lia.
  - simpl. lia.
Qed.

Lemma digits2_pos_unique (p : positive) (g : Z) :
  2 ^ (g - 1) <= Zpos p < 2 ^ g -> Zpos (digits2_pos p) = g.
Proof.
  intros [Hlo Hhi]. pose proof (digits2_pos_bounds p) as [Dlo Dhi].
  assert (0 < g).
  { destruct (Z_lt_le_dec 0 g) as [|Hg]; [assumption | exfalso].
    destruct (Z.eq_dec g 0) as [->|]; [simpl in Hhi; lia |].
    rewrite Z.pow_neg_r in Hhi by lia. lia. }
  destruct (Z_lt_le_dec (Zpos (digits2_pos p)) g) as [Hlt | Hge].
  - assert (2 ^ Zpos (digits2_pos p) <= 2 ^ (g - 1)) by (apply Z.pow_le_mono_r; lia). lia.
  - destruct (Z.eq_dec (Zpos (digits2_pos p)) g) as [|Hne]; [assumption | exfalso].
    assert (2 ^ g <= 2 ^ (Zpos (digits2_pos p) - 1)) by (apply Z.pow_le_mono_r; lia). lia.
Qed.

Lemma digits2_pos_shift (m d : positive) :
  Zpos (digits2_pos (Pos.iter xO m d)) = Zpos (digits2_pos m) + Zpos d.
Proof.
  apply digits2_pos_unique.
  change (Pos.iter xO m d) with (shift_pos d m).
  rewrite shift_pos_correct, Z.pow_pos_fold.
  pose proof (digits2_pos_bounds m) as [Dlo Dhi].
  replace (Zpos (digits2_pos m) + Zpos d - 1) with ((Zpos (digits2_pos m) - 1) + Zpos d) by lia.
  rewrite !Z.pow_add_r by lia.
  assert (0 < 2 ^ Zpos d) by (apply Z.pow_pos_nonneg; lia).
  nia.
Qed.

(** *** Shifting right with round and sticky bits *)


Lemma shifted_0 (M : Z) :
  0 <= M -> shifted M 0 {| shr_m := M; shr_r := false; shr_s := false |}.
Proof. intros HM. exists 0. simpl. repeat split; lia. Qed.

Lemma shifted_shr_1 (M j : Z) (mrs : shr_record) :
  0 <= j -> shifted M j mrs -> shifted M (j + 1) (shr_1 mrs).
Proof.
  intros Hj (rho & HM & Hrho & Hm & Hr & Hs).
  destruct mrs as [m r s]. cbn [shr_m shr_r shr_s] in *.
  assert (HP : 2 ^ (j + 1) = 2 * 2 ^ j) by (rewrite Z.pow_add_r by lia; change (2 ^ 1) with 2; lia).
  assert (Hpos : 0 < 2 ^ j) by (apply Z.pow_pos_nonneg; lia).
  assert (Hors : orb r s = negb (rho =? 0)).
  { subst r s. destruct (Z.eqb_spec rho 0), (Z.leb_spec (2 ^ j) (2 * rho)),
      (Z.eqb_spec (2 * rho) (2 ^ j)); simpl; try reflexivity; lia. }
  destruct m as [| [p | p |] | p]; try lia; cbn [shr_1]; rewrite Hors.
  - exists rho. cbn [shr_m shr_r shr_s]. rewrite HP. repeat split; lia.
  - exists (2 ^ j + rho). cbn [shr_m shr_r shr_s]. rewrite HP. repeat split; lia.
  - exists rho. cbn [shr_m shr_r shr_s]. rewrite HP. repeat split; lia.
  - exists (2 ^ j + rho). cbn [shr_m shr_r shr_s]. rewrite HP. repeat split; lia.
Qed.

Lemma shifted_iter_pos (M : Z) (p : positive) :
  forall (j : Z) (mrs : shr_record),
    0 <= j -> shifted M j mrs -> shifted M (j + Zpos p) (iter_pos shr_1 p mrs).
Proof.
  induction p as [p IH | p IH |]; intros j mrs Hj Hmrs; simpl iter_pos.
  - replace (j + Zpos p~1) with (((j + 1) + Zpos p) + Zpos p) by lia.
    apply IH; [lia |]. apply IH; [lia |]. apply shifted_shr_1; assumption.
  - replace (j + Zpos p~0) with ((j + Zpos p) + Zpos p) by lia.
    apply IH; [lia |]. apply IH; assumption.
  - apply shifted_shr_1; assumption.
Qed.

(** [shr] on an exact record: nothing for a shift [n <= 0]. *)
Lemma shr_exact (M e n : Z) :
  0 <= M ->
  shifted M (Z.max 0 n) (fst (shr {| shr_m := M; shr_r := false; shr_s := false |} e n)) /\
  snd (shr {| shr_m := M; shr_r := false; shr_s := false |} e n) = e + Z.max 0 n.
Proof.
  intros HM. destruct n as [| p | p]; simpl.
  - split; [apply shifted_0; assumption | lia].
  - split; [| lia].
    change (Zpos p) with (0 + Zpos p).
    apply shifted_iter_pos; [lia |]. apply shifted_0; assumption.
  - split; [apply shifted_0; assumption | lia].
Qed.

(** Rounding to nearest the shifted mantissa: the closer of the two
    neighbours (either one on a tie). *)
Lemma round_nearest_even_shifted (M j : Z) (mrs : shr_record) :
  shifted M j mrs ->
  exists rho : Z,
    M = shr_m mrs * 2 ^ j + rho /\ 0 <= rho < 2 ^ j /\ 0 <= shr_m mrs /\
    ((round_nearest_even (shr_m mrs) (loc_of_shr_record mrs) = shr_m mrs /\
      2 * rho <= 2 ^ j) \/
     (round_nearest_even (shr_m mrs) (loc_of_shr_record mrs) = shr_m mrs + 1 /\
      2 ^ j <= 2 * rho)).
Proof.
  intros (rho & HM & Hrho & Hm & Hr & Hs). exists rho.
  repeat split; try assumption; try lia.
  destruct mrs as [m r s]. cbn [shr_m shr_r shr_s] in *.
  destruct r, s; cbn [round_nearest_even loc_of_shr_record].
  - right. split; [reflexivity | lia].
  - destruct (Z.even m); [left | right]; (split; [reflexivity | lia]).
  - left. split; [reflexivity | lia].
  - left. split; [reflexivity | lia].
Qed.

(** *** Real values *)

Lemma F2R_shift (m e n : Z) : 0 <= n -> F2R (m * 2 ^ n) e = F2R m (e + n).
Proof.
  intros Hn. unfold F2R. rewrite mult_IZR, bpow_add, <- (bpow_IZR n Hn). lra.
Qed.

Lemma F2R_pow2 (n e : Z) : 0 <= n -> F2R (2 ^ n) e = bpow (n + e).
Proof. intros Hn. unfold F2R. rewrite <- (bpow_IZR n Hn), bpow_add. reflexivity. Qed.

Lemma F2R_le (m m' e : Z) : m <= m' -> (F2R m e <= F2R m' e)%R.
Proof.
  intros Hm. unfold F2R. apply IZR_le in Hm. pose proof (bpow_pos e). nra.
Qed.

Lemma F2R_lt (m m' e : Z) : m < m' -> (F2R m e < F2R m' e)%R.
Proof.
  intros Hm. unfold F2R. apply IZR_lt in Hm. pose proof (bpow_pos e). nra.
Qed.

Lemma F2R_le_inv (m m' e : Z) : (F2R m e <= F2R m' e)%R -> m <= m'.
Proof.
  intros Hle. destruct (Z_le_gt_dec m m') as [|Hgt]; [assumption | exfalso].
  apply Z.gt_lt, (F2R_lt _ _ e) in Hgt. lra.
Qed.

Lemma F2R_add (m m' e : Z) : F2R (m + m') e = (F2R m e + F2R m' e)%R.
Proof. unfold F2R. rewrite plus_IZR. lra. Qed.

Lemma F2R_0 (e : Z) : F2R 0 e = 0%R.
Proof. unfold F2R. lra. Qed.

Lemma F2R_mul (m m' e e' : Z) : F2R (m * m') (e + e') = (F2R m e * F2R m' e')%R.
Proof. unfold F2R. rewrite mult_IZR, bpow_add. lra. Qed.

Lemma F2R_pos (m : positive) (e : Z) : (0 < F2R (Zpos m) e)%R.
Proof.
  unfold F2R. pose proof (bpow_pos e).
  assert (0 < IZR (Zpos m))%R by (apply IZR_lt; lia). nra.
Qed.

(** *** A format: precision [prec], maximal exponent [emax] *)

Section Format.

Variables prec emax : Z.
Hypothesis Hprec : 1 <= prec.
Hypothesis Hemax : 2 <= emax.

Abbreviation emin := (SpecFloat.emin prec emax).
Abbreviation fexp := (SpecFloat.fexp prec emax).

Lemma fexp_ge_emin (k : Z) : emin <= fexp k.
Proof. unfold SpecFloat.fexp. lia. Qed.

Lemma fexp_ge_sub (k : Z) : k - prec <= fexp k.
Proof. unfold SpecFloat.fexp. lia. Qed.

Lemma fexp_normal (k : Z) : emin < fexp k -> fexp k = k - prec.
Proof. unfold SpecFloat.fexp. lia. Qed.

Lemma emin_lt_emax : emin < emax - prec.
Proof. unfold SpecFloat.emin. lia. Qed.

Lemma emin_nonpos : emin <= 0.
Proof. unfold SpecFloat.emin. lia. Qed.

Lemma Zdigits2_bounds (m : Z) :
  0 < m -> 2 ^ (Zdigits2 m - 1) <= m < 2 ^ Zdigits2 m.
Proof.
  destruct m as [| p | p]; try lia. intros _. apply digits2_pos_bounds.
Qed.

(** What a canonical, bounded mantissa and exponent satisfy. *)
Lemma bounded_inv (m : positive) (e : Z) :
  bounded prec emax m e = true ->
  emin <= e <= emax - prec /\ Zpos m < 2 ^ prec /\ (emin < e -> 2 ^ (prec - 1) <= Zpos m).
Proof.
  unfold bounded, canonical_mantissa. intros Hb.
  apply andb_true_iff in Hb. destruct Hb as [Hc He].
  apply Z.eqb_eq in Hc. apply Z.leb_le in He.
  pose proof (digits2_pos_bounds m) as [Dlo Dhi].
  pose proof (fexp_ge_emin (Zpos (digits2_pos m) + e)).
  pose proof (fexp_ge_sub (Zpos (digits2_pos m) + e)).
  split; [lia |]. split.
  - apply Z.lt_le_trans with (1 := Dhi). apply Z.pow_le_mono_r; lia.
  - intros Hn. rewrite <- Hc in Hn. apply fexp_normal in Hn.
    replace (prec - 1) with (Zpos (digits2_pos m) - 1) by lia. exact Dlo.
Qed.

Lemma bounded_normal (m : positive) (e : Z) :
  2 ^ (prec - 1) <= Zpos m < 2 ^ prec -> emin <= e <= emax - prec ->
  bounded prec emax m e = true.
Proof.
  intros Hm He. unfold bounded, canonical_mantissa.
  rewrite (digits2_pos_unique m prec Hm).
  apply andb_true_iff. split; [apply Z.eqb_eq | apply Z.leb_le; lia].
  unfold SpecFloat.fexp. lia.
Qed.

(** The integers behind [binary_round_aux] on an exact positive input
    [M * 2^E] whose exponent is not above the target exponent. *)
Lemma binary_round_aux_integers (M : positive) (E : Z) :
  let e1 := fexp (Zpos (digits2_pos M) + E) in
  E <= e1 ->
  exists m1 rho m2 m3 e3 : Z,
    Zpos M = m1 * 2 ^ (e1 - E) + rho /\ 0 <= rho < 2 ^ (e1 - E) /\
    0 <= m1 < 2 ^ prec /\ (emin < e1 -> 2 ^ (prec - 1) <= m1) /\
    ((m2 = m1 /\ 2 * rho <= 2 ^ (e1 - E)) \/ (m2 = m1 + 1 /\ 2 ^ (e1 - E) <= 2 * rho)) /\
    ((m3 = m2 /\ e3 = e1) \/ (m2 = 2 * m3 /\ e3 = e1 + 1 /\ m3 = 2 ^ (prec - 1))) /\
    binary_round_aux prec emax false (Zpos M) E loc_Exact =
    match m3 with
    | Z0 => S754_zero false
    | Zpos p => if e3 <=? emax - prec then S754_finite false p e3 else S754_infinity false
    | Zneg _ => S754_nan
    end.
Proof.
  intros e1 HE.
  unfold binary_round_aux, shr_fexp.
  change (Zdigits2 (Zpos M)) with (Zpos (digits2_pos M)). fold e1.
  cbn [shr_record_of_loc].
  pose proof (shr_exact (Zpos M) E (e1 - E) (Pos2Z.is_nonneg M)) as [Hsh He'].
  destruct (shr {| shr_m := Zpos M; shr_r := false; shr_s := false |} E (e1 - E)) as [mrs' e'].
  cbn [fst snd] in Hsh, He'.
  rewrite Z.max_r in Hsh, He' by lia.
  assert (He1 : e' = e1) by lia. clear He'. subst e'.
  destruct (round_nearest_even_shifted _ _ _ Hsh) as (rho & HM & Hrho & Hm1 & Hm2).
  set (m1 := shr_m mrs') in *.
  set (m2 := round_nearest_even m1 (loc_of_shr_record mrs')) in *.
  set (n := e1 - E) in *.
  assert (Hn : 0 <= n) by (subst n; lia).
  assert (HPn : 0 < 2 ^ n) by (apply Z.pow_pos_nonneg; lia).
  pose proof (digits2_pos_bounds M) as [Dlo Dhi].
  pose proof (fexp_ge_emin (Zpos (digits2_pos M) + E)) as Hemin. fold e1 in Hemin.
  pose proof (fexp_ge_sub (Zpos (digits2_pos M) + E)) as Hsub. fold e1 in Hsub.
  assert (Hm1hi : m1 < 2 ^ prec).
  { assert (Hpw : 2 ^ Zpos (digits2_pos M) <= 2 ^ (prec + n)) by (apply Z.pow_le_mono_r; lia).
    rewrite Z.pow_add_r in Hpw by lia. nia. }
  assert (Hm1lo : emin < e1 -> 2 ^ (prec - 1) <= m1).
  { intros Hnorm. apply fexp_normal in Hnorm. fold e1 in Hnorm.
    replace (Zpos (digits2_pos M) - 1) with ((prec - 1) + n) in Dlo by lia.
    rewrite Z.pow_add_r in Dlo by lia. nia. }
  assert (Hm2r : 0 <= m2 <= 2 ^ prec) by lia.
  pose proof (shr_exact m2 e1 (fexp (Zdigits2 m2 + e1) - e1) (proj1 Hm2r)) as [Hsh2 He''].
  destruct (shr {| shr_m := m2; shr_r := false; shr_s := false |} e1
              (fexp (Zdigits2 m2 + e1) - e1)) as [mrs'' e''].
  cbn [fst snd] in Hsh2, He''.
  exists m1, rho, m2, (shr_m mrs''), e''.
  repeat split; try assumption; try lia.
  destruct Hsh2 as (rho2 & HM2 & Hrho2 & Hm3 & _).
  assert (Hn2 : Z.max 0 (fexp (Zdigits2 m2 + e1) - e1) = 0 \/
                (Z.max 0 (fexp (Zdigits2 m2 + e1) - e1) = 1 /\ m2 = 2 ^ prec)).
  { destruct (Z.eq_dec m2 0) as [-> | Hnz].
    - left. cbn [Zdigits2]. unfold SpecFloat.fexp in *. lia.
    - pose proof (Zdigits2_bounds m2 ltac:(lia)) as [Glo Ghi].
      destruct (Z_le_gt_dec (Zdigits2 m2) prec) as [Hg | Hg].
      + left. unfold SpecFloat.fexp in *. lia.
      + right.
        assert (2 ^ prec <= 2 ^ (Zdigits2 m2 - 1)) by (apply Z.pow_le_mono_r; lia).
        assert (m2 = 2 ^ prec) by lia.
        split; [| assumption].
        assert (Zdigits2 m2 <= prec + 1).
        { destruct (Z_le_gt_dec (Zdigits2 m2) (prec + 1)); [assumption | exfalso].
          assert (Hpw : 2 ^ (prec + 1) <= 2 ^ (Zdigits2 m2 - 1)) by (apply Z.pow_le_mono_r; lia).
          rewrite Z.pow_add_r in Hpw by lia. lia. }
        unfold SpecFloat.fexp in *. lia. }
  destruct Hn2 as [Hn2 | [Hn2 Hm2eq]]; rewrite Hn2 in *.
  - left. change (2 ^ 0) with 1 in *. lia.
  - right. change (2 ^ 1) with 2 in *.
    replace prec with ((prec - 1) + 1) in Hm2eq at 1 by lia.
    rewrite Z.pow_add_r in Hm2eq by lia. change (2 ^ 1) with 2 in Hm2eq.
    lia.
Qed.


Lemma bounded_lt_bpow (m : positive) (e : Z) :
  bounded prec emax m e = true -> (F2R (Zpos m) e < bpow (prec + e))%R.
Proof.
  intros Hb. apply bounded_inv in Hb.
  destruct Hb as (He & Hm & _).
  rewrite <- F2R_pow2 by lia. apply F2R_lt. exact Hm.
Qed.

Lemma bounded_lt_emax (m : positive) (e : Z) :
  bounded prec emax m e = true -> (F2R (Zpos m) e < bpow emax)%R.
Proof.
  intros Hb. pose proof (bounded_lt_bpow m e Hb) as Hlt.
  apply bounded_inv in Hb. destruct Hb as (He & _).
  apply Rlt_le_trans with (1 := Hlt). apply bpow_le. lia.
Qed.

(** The rounding performed by [binary_round_aux]: its result stands for a
    real nearest to the exact value among the floats of the format; it is
    an infinity only from [2^emax] on; and when the exact value is a
    multiple of [2^emin] it is exact or at least [2^(emin + prec)]. *)
Lemma binary_round_aux_nearest (M : positive) (E : Z) :
  E <= fexp (Zpos (digits2_pos M) + E) ->
  exists v : R,
    nearest prec emax v (F2R (Zpos M) E) /\
    rounds_to emax (binary_round_aux prec emax false (Zpos M) E loc_Exact) v /\
    (emin <= E -> v = F2R (Zpos M) E \/ (bpow (emin + prec) <= v)%R).
Proof.
  intros HE.
  destruct (binary_round_aux_integers M E HE)
    as (m1 & rho & m2 & m3 & e3 & HM & Hrho & Hm1 & Hm1lo & Hm2 & Hm3 & Hres).
  set (e1 := fexp (Zpos (digits2_pos M) + E)) in *.
  set (n := e1 - E) in *.
  assert (Hn : 0 <= n) by (subst n; lia).
  pose proof (fexp_ge_emin (Zpos (digits2_pos M) + E)) as Hemin. fold e1 in Hemin.
  pose proof emin_lt_emax as Hee.
  exists (F2R m2 e1).
  (* the two neighbours of the exact value on the grid of step [2^e1] *)
  assert (Hq : F2R (Zpos M) E = (F2R m1 e1 + F2R rho E)%R).
  { rewrite HM, F2R_add, F2R_shift by lia. do 2 f_equal. subst n. lia. }
  assert (Hstep : bpow e1 = F2R (2 ^ n) E).
  { rewrite F2R_pow2 by lia. f_equal. subst n. lia. }
  assert (Hrho0 : (0 <= F2R rho E)%R).
  { rewrite <- (F2R_0 E). apply F2R_le. lia. }
  assert (Hrho1 : (F2R rho E < bpow e1)%R).
  { rewrite Hstep. apply F2R_lt. lia. }
  assert (Hup : F2R (m1 + 1) e1 = (F2R m1 e1 + bpow e1)%R).
  { rewrite F2R_add. unfold F2R at 2. lra. }
  assert (Hnormal : emin < e1 -> (bpow (prec - 1 + e1) <= F2R m1 e1)%R).
  { intros Hlt. rewrite <- F2R_pow2 by lia. apply F2R_le. auto. }
  assert (Hv : (F2R m2 e1 = F2R m1 e1 /\ 2 * F2R rho E <= bpow e1)%R \/
               (F2R m2 e1 = F2R m1 e1 + bpow e1 /\ bpow e1 <= 2 * F2R rho E)%R).
  { destruct Hm2 as [[-> Hr] | [-> Hr]]; [left | right]; (split; [auto |]).
    - rewrite Hstep. replace (2 * F2R rho E)%R with (F2R (2 * rho) E).
      + apply F2R_le. exact Hr.
      + unfold F2R. rewrite mult_IZR. lra.
    - rewrite Hstep. replace (2 * F2R rho E)%R with (F2R (2 * rho) E).
      + apply F2R_le. exact Hr.
      + unfold F2R. rewrite mult_IZR. lra. }
  split; [| split].
  - (* nearest *)
    intros mf ef Hb.
    assert (Hgap : (F2R (Zpos mf) ef <= F2R m1 e1 \/ F2R m1 e1 + bpow e1 <= F2R (Zpos mf) ef)%R).
    { destruct (Z_le_gt_dec e1 ef) as [Hge | Hlt].
      - replace ef with (e1 + (ef - e1)) by lia.
        rewrite <- F2R_shift by lia.
        destruct (Z_le_gt_dec (Zpos mf * 2 ^ (ef - e1)) m1) as [Hc | Hc].
        + left. apply F2R_le. exact Hc.
        + right. rewrite <- Hup. apply F2R_le. lia.
      - left. pose proof (bounded_lt_bpow mf ef Hb) as Hf.
        apply bounded_inv in Hb. destruct Hb as (Hef & _).
        assert (Hb1 : (bpow (prec + ef) <= bpow (prec - 1 + e1))%R) by (apply bpow_le; lia).
        assert (Hb2 : (bpow (prec - 1 + e1) <= F2R m1 e1)%R) by (apply Hnormal; lia).
        lra. }
    rewrite Hq.
    abs_cases.
  - (* the result *)
    rewrite Hres. unfold rounds_to.
    destruct Hm3 as [[-> ->] | (Hm23 & -> & Hm3)].
    + destruct m2 as [| p | p].
      * split; [reflexivity | apply F2R_0].
      * destruct (Z.leb_spec e1 (emax - prec)) as [Hle | Hgt].
        -- split; reflexivity.
        -- split; [reflexivity |].
           assert (Hb1 : (bpow emax <= bpow (prec - 1 + e1))%R) by (apply bpow_le; lia).
           assert (Hb2 : (bpow (prec - 1 + e1) <= F2R m1 e1)%R) by (apply Hnormal; lia).
           destruct Hv as [[Hv _] | [Hv _]]; rewrite Hv; pose proof (bpow_pos e1); lra.
      * lia.
    + assert (Hval : F2R m2 e1 = F2R m3 (e1 + 1)).
      { rewrite Hm23. rewrite <- F2R_shift by lia. f_equal. change (2 ^ 1) with 2. lia. }
      assert (Hm3pos : 0 < m3) by (rewrite Hm3; apply Z.pow_pos_nonneg; lia).
      destruct m3 as [| p | p]; try lia.
      destruct (Z.leb_spec (e1 + 1) (emax - prec)) as [Hle | Hgt].
      * split; [reflexivity | exact Hval].
      * split; [reflexivity |]. rewrite Hval, Hm3, F2R_pow2 by lia.
        apply bpow_le. lia.
  - (* exact, or in the normal range *)
    intros HEmin.
    destruct (Z.eq_dec rho 0) as [-> | Hnz].
    + left. rewrite Hq, F2R_0 in *.
      destruct Hv as [[Hv _] | [Hv Hr]]; [lra |].
      pose proof (bpow_pos e1). lra.
    + right.
      assert (Hn1 : 0 < n).
      { destruct (Z.eq_dec n 0) as [Hn0 | ]; [| lia].
        rewrite Hn0 in Hrho. change (2 ^ 0) with 1 in Hrho. lia. }
      assert (Hb1 : (bpow (emin + prec) <= bpow (prec - 1 + e1))%R) by (apply bpow_le; lia).
      assert (Hb2 : (bpow (prec - 1 + e1) <= F2R m1 e1)%R) by (apply Hnormal; lia).
      destruct Hv as [[Hv _] | [Hv _]]; rewrite Hv; pose proof (bpow_pos e1); lra.
Qed.

(** [binary_round]: the mantissa is first aligned on the target exponent. *)
Lemma shl_align_spec (m : positive) (e e' : Z) :
  snd (shl_align m e e') = Z.min e e' /\
  Zpos (fst (shl_align m e e')) = Zpos m * 2 ^ (e - Z.min e e') /\
  Zpos (digits2_pos (fst (shl_align m e e'))) + snd (shl_align m e e') =
    Zpos (digits2_pos m) + e.
Proof.
  unfold shl_align. destruct (e' - e) as [| d | d] eqn:Hd; cbn [fst snd].
  - rewrite Z.min_l by lia. replace (e - e) with 0 by lia. change (2 ^ 0) with 1. lia.
  - rewrite Z.min_l by lia. replace (e - e) with 0 by lia. change (2 ^ 0) with 1. lia.
  - rewrite Z.min_r by lia. replace (e - e') with (Zpos d) by lia.
    split; [reflexivity |]. split.
    + change (Pos.iter xO m d) with (shift_pos d m).
      rewrite shift_pos_correct, Z.pow_pos_fold. lia.
    + rewrite digits2_pos_shift. lia.
Qed.

Lemma binary_round_nearest (M : positive) (E : Z) :
  exists v : R,
    nearest prec emax v (F2R (Zpos M) E) /\
    rounds_to emax (binary_round prec emax false M E) v /\
    (emin <= E -> v = F2R (Zpos M) E \/ (bpow (emin + prec) <= v)%R).
Proof.
  unfold binary_round.
  pose proof (shl_align_spec M E (fexp (Zpos (digits2_pos M) + E))) as (He & Hm & Hd).
  destruct (shl_align M E (fexp (Zpos (digits2_pos M) + E))) as [mz ez].
  cbn [fst snd] in He, Hm, Hd.
  pose proof (fexp_ge_emin (Zpos (digits2_pos M) + E)) as Hemin.
  assert (Hval : F2R (Zpos mz) ez = F2R (Zpos M) E).
  { rewrite Hm, F2R_shift by lia. f_equal. lia. }
  destruct (binary_round_aux_nearest mz ez) as (v & Hnear & Hres & Hex).
  { rewrite Hd. lia. }
  exists v. rewrite <- Hval. repeat split; try assumption.
  intros HE. apply Hex. lia.
Qed.

(** *** Comparison of positive finite floats *)

Lemma bounded_exponent_lt (m1 m2 : positive) (e1 e2 : Z) :
  bounded prec emax m1 e1 = true -> bounded prec emax m2 e2 = true ->
  e1 < e2 -> (F2R (Zpos m1) e1 < F2R (Zpos m2) e2)%R.
Proof.
  intros H1 H2 Hlt.
  pose proof (bounded_lt_bpow m1 e1 H1) as Hup.
  apply bounded_inv in H1, H2.
  destruct H1 as (He1 & _). destruct H2 as (He2 & _ & Hm2).
  assert (Hlo : (bpow (prec - 1 + e2) <= F2R (Zpos m2) e2)%R).
  { rewrite <- F2R_pow2 by lia. apply F2R_le. apply Hm2. lia. }
  assert (Hmid : (bpow (prec + e1) <= bpow (prec - 1 + e2))%R) by (apply bpow_le; lia).
  lra.
Qed.

Lemma SFleb_pos (m1 m2 : positive) (e1 e2 : Z) :
  bounded prec emax m1 e1 = true -> bounded prec emax m2 e2 = true ->
  SFleb (S754_finite false m1 e1) (S754_finite false m2 e2) = true <->
  (F2R (Zpos m1) e1 <= F2R (Zpos m2) e2)%R.
Proof.
  intros H1 H2. unfold SFleb, SFcompare.
  destruct (Z.compare_spec e1 e2) as [-> | Hlt | Hgt].
  - change (Pos.compare_cont Eq m1 m2) with (Pos.compare m1 m2).
    destruct (Pos.compare_spec m1 m2) as [-> | Hm | Hm].
    + split; [lra | reflexivity].
    + split; [intros _ | reflexivity]. apply F2R_le. lia.
    + split; [discriminate |]. intros Hle. apply F2R_le_inv in Hle. lia.
  - pose proof (bounded_exponent_lt m1 m2 e1 e2 H1 H2 Hlt). split; [lra | reflexivity].
  - pose proof (bounded_exponent_lt m2 m1 e2 e1 H2 H1 Hgt). split; [discriminate | lra].
Qed.

Lemma SFltb_pos (m1 m2 : positive) (e1 e2 : Z) :
  bounded prec emax m1 e1 = true -> bounded prec emax m2 e2 = true ->
  SFltb (S754_finite false m1 e1) (S754_finite false m2 e2) = true <->
  (F2R (Zpos m1) e1 < F2R (Zpos m2) e2)%R.
Proof.
  intros H1 H2. unfold SFltb, SFcompare.
  destruct (Z.compare_spec e1 e2) as [-> | Hlt | Hgt].
  - change (Pos.compare_cont Eq m1 m2) with (Pos.compare m1 m2).
    destruct (Pos.compare_spec m1 m2) as [-> | Hm | Hm].
    + split; [discriminate | lra].
    + split; [intros _ | reflexivity]. apply F2R_lt. lia.
    + split; [discriminate |]. intros Hle.
      assert (F2R (Zpos m2) e2 < F2R (Zpos m1) e2)%R by (apply F2R_lt; lia). lra.
  - pose proof (bounded_exponent_lt m1 m2 e1 e2 H1 H2 Hlt). split; [lra | reflexivity].
  - pose proof (bounded_exponent_lt m2 m1 e2 e1 H2 H1 Hgt). split; [discriminate | lra].
Qed.

(** *** The three operations on positive finite floats *)

Lemma nearest_exact (q : R) : nearest prec emax q q.
Proof.
  intros m e _. replace (q - q)%R with 0%R by lra. rewrite Rabs_R0. apply Rabs_pos.
Qed.

Lemma aligned_value (m : positive) (e ez : Z) :
  ez <= e -> F2R (Zpos (fst (shl_align m e ez))) ez = F2R (Zpos m) e.
Proof.
  intros Hle. pose proof (shl_align_spec m e ez) as (_ & Hm & _).
  rewrite Hm, Z.min_r, F2R_shift by lia. f_equal. lia.
Qed.

Lemma SFsub_pos (ma mb : positive) (ea eb : Z) :
  bounded prec emax ma ea = true -> bounded prec emax mb eb = true ->
  (F2R (Zpos ma) ea <= F2R (Zpos mb) eb)%R ->
  exists v : R,
    nearest prec emax v (F2R (Zpos mb) eb - F2R (Zpos ma) ea) /\
    rounds_to emax (SFsub prec emax (S754_finite false mb eb) (S754_finite false ma ea)) v /\
    (v = (F2R (Zpos mb) eb - F2R (Zpos ma) ea)%R \/ (bpow (emin + prec) <= v)%R).
Proof.
  intros Ha Hb Hle. unfold SFsub, cond_Zopp.
  set (ez := Z.min eb ea).
  pose proof (aligned_value ma ea ez ltac:(lia)) as Hva.
  pose proof (aligned_value mb eb ez ltac:(lia)) as Hvb.
  set (Ma := Zpos (fst (shl_align ma ea ez))) in *.
  set (Mb := Zpos (fst (shl_align mb eb ez))) in *.
  assert (Hq : F2R (Mb - Ma) ez = (F2R (Zpos mb) eb - F2R (Zpos ma) ea)%R).
  { rewrite <- Hva, <- Hvb. unfold F2R. rewrite minus_IZR. lra. }
  assert (Hnn : 0 <= Mb - Ma).
  { rewrite <- Hva, <- Hvb in Hle. apply F2R_le_inv in Hle. lia. }
  rewrite <- Hq.
  destruct (Mb - Ma) as [| p | p]; try lia; cbn [binary_normalize].
  - exists 0%R. rewrite F2R_0. repeat split; auto using nearest_exact.
  - destruct (binary_round_nearest p ez) as (v & Hnear & Hres & Hex).
    exists v. repeat split; try assumption.
    apply Hex. apply bounded_inv in Ha, Hb. subst ez. lia.
Qed.

Lemma digits2_pos_lower (m : positive) (j : Z) :
  2 ^ j <= Zpos m -> j < Zpos (digits2_pos m).
Proof.
  intros Hj. pose proof (digits2_pos_bounds m) as [_ Dhi].
  destruct (Z_lt_le_dec j (Zpos (digits2_pos m))) as [| Hge]; [assumption | exfalso].
  assert (2 ^ Zpos (digits2_pos m) <= 2 ^ j) by (apply Z.pow_le_mono_r; lia). lia.
Qed.

Lemma SFmul_pos (mu md : positive) (eu ed : Z) :
  bounded prec emax mu eu = true -> bounded prec emax md ed = true ->
  exists v : R,
    nearest prec emax v (F2R (Zpos mu) eu * F2R (Zpos md) ed) /\
    rounds_to emax (SFmul prec emax (S754_finite false mu eu) (S754_finite false md ed)) v.
Proof.
  intros Hu Hd. unfold SFmul. cbn [xorb].
  rewrite <- F2R_mul. rewrite <- Pos2Z.inj_mul.
  destruct (binary_round_aux_nearest (mu * md) (eu + ed)) as (v & Hnear & Hres & _);
    [| exists v; split; assumption].
  apply bounded_inv in Hu, Hd.
  destruct Hu as (Heu & _ & Hmu). destruct Hd as (Hed & _ & Hmd).
  pose proof (fexp_ge_emin (Zpos (digits2_pos (mu * md)) + (eu + ed))) as Hemin.
  pose proof (fexp_ge_sub (Zpos (digits2_pos (mu * md)) + (eu + ed))) as Hsub.
  pose proof emin_nonpos as Hneg.
  assert (Hone : forall p : positive, 1 <= Zpos p) by (intros; lia).
  destruct (Z.eq_dec eu emin) as [Hue | Hue]; [destruct (Z.eq_dec ed emin) as [Hde | Hde] |].
  - lia.
  - assert (Hpw : 2 ^ (prec - 1) <= Zpos (mu * md)).
    { rewrite Pos2Z.inj_mul. specialize (Hmd ltac:(lia)). specialize (Hone mu). nia. }
    apply digits2_pos_lower in Hpw. lia.
  - assert (Hpw : 2 ^ (prec - 1) <= Zpos (mu * md)).
    { rewrite Pos2Z.inj_mul. specialize (Hmu ltac:(lia)). specialize (Hone md). nia. }
    apply digits2_pos_lower in Hpw. lia.
Qed.

Lemma SFadd_pos (ma mx : positive) (ea ex : Z) :
  bounded prec emax ma ea = true -> bounded prec emax mx ex = true ->
  exists v : R,
    nearest prec emax v (F2R (Zpos ma) ea + F2R (Zpos mx) ex) /\
    rounds_to emax (SFadd prec emax (S754_finite false ma ea) (S754_finite false mx ex)) v.
Proof.
  intros Ha Hx. unfold SFadd, cond_Zopp.
  set (ez := Z.min ea ex).
  pose proof (aligned_value ma ea ez ltac:(lia)) as Hva.
  pose proof (aligned_value mx ex ez ltac:(lia)) as Hvx.
  rewrite <- Hva, <- Hvx, <- F2R_add. rewrite <- Pos2Z.inj_add.
  cbn [binary_normalize].
  destruct (binary_round_nearest
              (fst (shl_align ma ea ez) + fst (shl_align mx ex ez)) ez)
    as (v & Hnear & Hres & _).
  exists v. split; assumption.
Qed.

(** *** Below one, and the float just below a normal float *)

Lemma below_one (mu : positive) (eu : Z) :
  bounded prec emax mu eu = true -> (F2R (Zpos mu) eu < 1)%R ->
  (F2R (Zpos mu) eu <= 1 - bpow (- prec))%R.
Proof.
  intros Hb Hlt.
  assert (Hone : F2R (2 ^ prec) (- prec) = 1%R).
  { rewrite F2R_pow2 by lia. replace (prec + - prec) with 0 by lia. apply bpow_0. }
  assert (Hpred : F2R (2 ^ prec - 1) (- prec) = (1 - bpow (- prec))%R).
  { replace (2 ^ prec - 1) with (2 ^ prec + (-1)) by lia.
    rewrite F2R_add, Hone. unfold F2R. lra. }
  destruct (Z_le_gt_dec (- prec) eu) as [Hge | Hsmall].
  - replace eu with (- prec + (eu + prec)) in * by lia.
    rewrite <- F2R_shift in * by lia.
    rewrite <- Hpred. apply F2R_le.
    rewrite <- Hone in Hlt.
    assert (Zpos mu * 2 ^ (eu + prec) < 2 ^ prec); [| lia].
    destruct (Z_lt_le_dec (Zpos mu * 2 ^ (eu + prec)) (2 ^ prec)) as [| Hc]; [assumption |].
    apply (F2R_le _ _ (- prec)) in Hc. lra.
  - pose proof (bounded_lt_bpow mu eu Hb) as Hup.
    assert (H1 : (bpow (prec + eu) <= bpow (-1))%R) by (apply bpow_le; lia).
    assert (H2 : (bpow (- prec) <= bpow (-1))%R) by (apply bpow_le; lia).
    assert (H3 : bpow (-1) = (/ 2)%R) by (unfold bpow; simpl; lra).
    lra.
Qed.

Lemma pred_closer (md : positive) (ed : Z) (U : R) :
  bounded prec emax md ed = true ->
  (bpow (emin + prec) <= F2R (Zpos md) ed)%R ->
  (0 <= U <= 1 - bpow (- prec))%R ->
  exists (mf : positive) (ef : Z),
    bounded prec emax mf ef = true /\
    (Rabs (F2R (Zpos mf) ef - U * F2R (Zpos md) ed) <
     Rabs (F2R (Zpos md) ed - U * F2R (Zpos md) ed))%R.
Proof.
  intros Hb Hbig HU.
  pose proof (bounded_lt_bpow md ed Hb) as Hup.
  assert (Hed : emin < ed).
  { destruct (Z_lt_le_dec emin ed) as [| Hle]; [assumption | exfalso].
    assert (bpow (prec + ed) <= bpow (emin + prec))%R by (apply bpow_le; lia). lra. }
  apply bounded_inv in Hb. destruct Hb as (He & Hhi & Hlo). specialize (Hlo Hed).
  set (v := F2R (Zpos md) ed) in *.
  assert (Hulp : (bpow (- prec) * v)%R = F2R (Zpos md) (ed - prec)).
  { subst v. unfold F2R. replace (ed - prec) with (- prec + ed) by lia.
    rewrite bpow_add. lra. }
  assert (Hhalf : F2R (2 ^ (prec - 1)) (ed - prec) = bpow (ed - 1)).
  { rewrite F2R_pow2 by lia. f_equal. lia. }
  assert (Hpw : 2 ^ prec = 2 * 2 ^ (prec - 1)).
  { replace prec with ((prec - 1) + 1) at 1 by lia.
    rewrite Z.pow_add_r by lia. change (2 ^ 1) with 2. lia. }
  assert (Hbe : bpow ed = (2 * bpow (ed - 1))%R) by apply bpow_pred.
  pose proof (bpow_pos (ed - 1)) as Hbpos.
  assert (Hvpos : (0 < v)%R) by apply F2R_pos.
  assert (HUv : (U * v <= v - F2R (Zpos md) (ed - prec))%R).
  { rewrite <- Hulp. nra. }
  destruct (Z.eq_dec (Zpos md) (2 ^ (prec - 1))) as [Heq | Hne].
  - (* a power of two: the float below is [2^prec - 1] one exponent down *)
    exists (Z.to_pos (2 ^ prec - 1)), (ed - 1).
    assert (Hpos : Zpos (Z.to_pos (2 ^ prec - 1)) = 2 ^ prec - 1) by (apply Z2Pos.id; lia).
    split; [apply bounded_normal; lia |].
    rewrite Hpos.
    assert (Hf : F2R (2 ^ prec - 1) (ed - 1) = (v - bpow (ed - 1))%R).
    { replace (2 ^ prec - 1) with (2 ^ prec + (-1)) by lia. rewrite F2R_add.
      replace (F2R (2 ^ prec) (ed - 1)) with v.
      - unfold F2R. lra.
      - subst v. rewrite Heq, Hpw.
        replace (2 * 2 ^ (prec - 1)) with (2 ^ (prec - 1) * 2 ^ 1) by (change (2 ^ 1) with 2; lia).
        rewrite F2R_shift by lia. f_equal. lia. }
    rewrite Hf. rewrite Heq, Hhalf in HUv.
    abs_cases.
  - exists (Z.to_pos (Zpos md - 1)), ed.
    assert (Hpos : Zpos (Z.to_pos (Zpos md - 1)) = Zpos md - 1) by (apply Z2Pos.id; lia).
    split; [apply bounded_normal; lia |].
    rewrite Hpos.
    assert (Hf : F2R (Zpos md - 1) ed = (v - bpow ed)%R).
    { replace (Zpos md - 1) with (Zpos md + (-1)) by lia.
      rewrite F2R_add. subst v. unfold F2R. lra. }
    assert (Hgt : (bpow (ed - 1) < F2R (Zpos md) (ed - prec))%R).
    { rewrite <- Hhalf. apply F2R_lt. lia. }
    rewrite Hf. abs_cases.
Qed.

(** *** [lo + u * (hi - lo)] stays between [lo] and [hi] *)


(** The argument, on the exact values [A <= B] of the bounds and [U < 1]
    of the draw.  The difference rounds to [v1 <= B]; the product rounds
    to [v2 <= v1]; and [v2 <= B - A]: if the difference was rounded up,
    no float lies strictly between [B - A] and [v1], and the product
    [U * v1] is nearer to the float just below [v1] than to [v1].  So the
    sum [A + v2] lies in [[A, B]], and so does its rounding, [A] and [B]
    being floats. *)
Lemma scale_between_SF (ma mb : positive) (ea eb : Z) (u d x r : spec_float) :
  let lo := S754_finite false ma ea in
  let hi := S754_finite false mb eb in
  bounded prec emax ma ea = true -> bounded prec emax mb eb = true ->
  (F2R (Zpos ma) ea <= F2R (Zpos mb) eb)%R ->
  in_unit prec emax u ->
  d = SFsub prec emax hi lo -> x = SFmul prec emax u d -> r = SFadd prec emax lo x ->
  SpecFloat.valid_binary prec emax d = true ->
  SpecFloat.valid_binary prec emax x = true ->
  SpecFloat.valid_binary prec emax r = true ->
  SFleb lo r = true /\ SFleb r hi = true.
Proof.
  intros lo hi Ha Hb HAB Hu Hd Hx Hr Vd Vx Vr.
  set (A := F2R (Zpos ma) ea) in *. set (B := F2R (Zpos mb) eb) in *.
  assert (HA : (0 < A)%R) by apply F2R_pos.
  assert (HB : (B < bpow emax)%R) by (apply bounded_lt_emax; assumption).
  assert (Hlo : SFleb lo lo = true /\ SFleb lo hi = true).
  { split; apply SFleb_pos; auto. fold A. lra. }
  destruct (SFsub_pos ma mb ea eb Ha Hb HAB) as (v1 & N1 & R1 & X1).
  fold lo hi A B in N1, R1, X1. rewrite <- Hd in R1.
  assert (Hv1B : (v1 <= B)%R).
  { specialize (N1 mb eb Hb). fold B in N1.
    abs_cases. }
  destruct d as [sd | sd | | sd md ed]; cbn [rounds_to] in R1.
  - (* hi - lo = 0 *)
    assert (Hrl : r = lo); [| rewrite Hrl; exact Hlo].
    rewrite Hr, Hx. destruct u as [su | su | | su mu eu]; cbn [in_unit] in Hu; try contradiction;
      reflexivity.
  - destruct R1 as [_ R1]. lra.
  - contradiction.
  - destruct R1 as [-> R1]. cbn [valid_binary] in Vd.
    destruct u as [su | su | | [|] mu eu]; cbn [in_unit] in Hu; try contradiction.
    + (* u = 0 *)
      assert (Hrl : r = lo); [| rewrite Hrl; exact Hlo].
      rewrite Hr, Hx. reflexivity.
    + destruct Hu as [Hu HU].
      pose proof (below_one mu eu Hu HU) as HU1.
      pose proof (F2R_pos mu eu) as HU0.
      set (U := F2R (Zpos mu) eu) in *.
      destruct (SFmul_pos mu md eu ed Hu Vd) as (v2 & N2 & R2).
      fold U in N2. rewrite <- R1 in N2. rewrite <- Hx in R2.
      assert (Hv1pos : (0 < v1)%R) by (rewrite R1; apply F2R_pos).
      assert (Hq2 : (U * v1 <= v1)%R) by nra.
      assert (Hv2v1 : (v2 <= v1)%R).
      { specialize (N2 md ed Vd). rewrite <- R1 in N2.
        abs_cases. }
      destruct x as [sx | sx | | sx mx ex]; cbn [rounds_to] in R2.
      * assert (Hrl : r = lo); [| rewrite Hrl; exact Hlo]. rewrite Hr. reflexivity.
      * destruct R2 as [_ R2]. lra.
      * contradiction.
      * destruct R2 as [-> R2]. cbn [valid_binary] in Vx.
        assert (Hv2pos : (0 < v2)%R) by (rewrite R2; apply F2R_pos).
        assert (Hv2q1 : (v2 <= B - A)%R).
        { destruct X1 as [Hex | Hbig]; [lra |].
          destruct (Rle_lt_dec v2 (B - A)) as [| Hgt]; [assumption | exfalso].
          assert (Heq : v2 = v1).
          { specialize (N1 mx ex Vx). rewrite <- R2 in N1.
            abs_cases. }
          rewrite R1 in Hbig.
          destruct (pred_closer md ed U Vd Hbig ltac:(lra)) as (mf & ef & Hf & Hcl).
          specialize (N2 mf ef Hf). rewrite <- R1 in Hcl. rewrite Heq in N2. lra. }
        destruct (SFadd_pos ma mx ea ex Ha Vx) as (v3 & N3 & R3).
        fold lo A in N3, R3. rewrite <- R2 in N3. rewrite <- Hr in R3.
        pose proof (N3 ma ea Ha) as N3lo. pose proof (N3 mb eb Hb) as N3hi.
        fold A in N3lo. fold B in N3hi.
        destruct r as [sr | sr | | sr mr er]; cbn [rounds_to] in R3.
        -- destruct R3 as [_ ->]. abs_cases.
        -- destruct R3 as [_ R3]. abs_cases.
        -- contradiction.
        -- destruct R3 as [-> R3]. cbn [valid_binary] in Vr.
           split; apply SFleb_pos; auto; fold A B; rewrite <- R3.
           ++ abs_cases.
           ++ abs_cases.
Qed.

End Format.

(** *** Binary64 *)

Lemma Prim2SF_zero : Prim2SF 0 = S754_zero false.
Proof. reflexivity. Qed.

Lemma Prim2SF_infinity : Prim2SF infinity = S754_infinity false.
Proof. reflexivity. Qed.

Lemma Prim2SF_one : Prim2SF 1 = S754_finite false 4503599627370496 (-52).
Proof. reflexivity. Qed.

Lemma prec_ge_1 : 1 <= prec.
Proof. unfold prec. lia. Qed.

Lemma emax_ge_2 : 2 <= emax.
Proof. unfold emax. lia. Qed.

Lemma F2R_one : F2R 4503599627370496 (-52) = 1%R.
Proof.
  change 4503599627370496 with (2 ^ 52). rewrite F2R_pow2 by lia. reflexivity.
Qed.

Lemma SFleb_binary64 (m1 m2 : positive) (e1 e2 : Z) :
  bounded prec emax m1 e1 = true -> bounded prec emax m2 e2 = true ->
  SFleb (S754_finite false m1 e1) (S754_finite false m2 e2) = true <->
  (F2R (Zpos m1) e1 <= F2R (Zpos m2) e2)%R.
Proof. apply SFleb_pos; auto using prec_ge_1, emax_ge_2. Qed.

Lemma SFltb_binary64 (m1 m2 : positive) (e1 e2 : Z) :
  bounded prec emax m1 e1 = true -> bounded prec emax m2 e2 = true ->
  SFltb (S754_finite false m1 e1) (S754_finite false m2 e2) = true <->
  (F2R (Zpos m1) e1 < F2R (Zpos m2) e2)%R.
Proof. apply SFltb_pos; auto using prec_ge_1, emax_ge_2. Qed.

(** A float that is not [<= 0] and is [<=] a float below infinity is a
    positive finite float, and so is that other float. *)
Lemma positive_finite_bounds (lo hi : float) :
  (lo <=? 0)%float = false -> (lo <=? hi)%float = true -> (hi <? infinity)%float = true ->
  exists (ma mb : positive) (ea eb : Z),
    Prim2SF lo = S754_finite false ma ea /\ Prim2SF hi = S754_finite false mb eb /\
    bounded prec emax ma ea = true /\ bounded prec emax mb eb = true /\
    (F2R (Zpos ma) ea <= F2R (Zpos mb) eb)%R.
Proof.
  rewrite !leb_spec, ltb_spec, Prim2SF_zero, Prim2SF_infinity.
  intros Hpos Hle Hfin.
  pose proof (Prim2SF_valid lo) as Vlo. pose proof (Prim2SF_valid hi) as Vhi.
  destruct (Prim2SF lo) as [s | s | | [|] ma ea]; try discriminate;
    try (destruct s; discriminate).
  - destruct s; [discriminate |].
    destruct (Prim2SF hi) as [s | s | | s mb eb]; try discriminate; destruct s; discriminate.
  - destruct (Prim2SF hi) as [s | s | | [|] mb eb]; try discriminate;
      try (destruct s; discriminate).
    exists ma, mb, ea, eb. cbn [SpecFloat.valid_binary] in Vlo, Vhi.
    repeat split; try assumption.
    apply SFleb_binary64; assumption.
Qed.

Lemma unit_draw (u : float) :
  (0 <=? u)%float = true -> (u <? 1)%float = true -> in_unit prec emax (Prim2SF u).
Proof.
  rewrite leb_spec, ltb_spec, Prim2SF_zero, Prim2SF_one.
  intros H0 H1. pose proof (Prim2SF_valid u) as Vu.
  destruct (Prim2SF u) as [s | s | | [|] mu eu]; try discriminate;
    try (destruct s; discriminate); cbn [in_unit]; [exact I |].
  cbn [SpecFloat.valid_binary] in Vu. split; [assumption |].
  rewrite <- F2R_one.
  apply SFltb_binary64; auto.
Qed.

(** The same on primitive floats, whose operations [FloatAxioms] specifies
    by those of [SpecFloat]. *)
Lemma scale_between (lo hi u : float) :
  (lo <=? 0)%float = false -> (lo <=? hi)%float = true -> (hi <? infinity)%float = true ->
  (0 <=? u)%float = true -> (u <? 1)%float = true ->
  (lo <=? UniformWorkload.scale lo hi u)%float = true /\
  (UniformWorkload.scale lo hi u <=? hi)%float = true.
Proof.
  intros Hpos Hle Hfin H0 H1.
  destruct (positive_finite_bounds lo hi Hpos Hle Hfin)
    as (ma & mb & ea & eb & Elo & Ehi & Ba & Bb & HAB).
  pose proof (unit_draw u H0 H1) as Hu.
  rewrite !leb_spec, Elo, Ehi.
  apply scale_between_SF
    with (prec := prec) (emax := emax)
         (u := Prim2SF u) (d := Prim2SF (hi - lo)) (x := Prim2SF (u * (hi - lo)));
    auto using prec_ge_1, emax_ge_2, Prim2SF_valid.
  - rewrite sub_spec, Elo, Ehi. reflexivity.
  - rewrite mul_spec. reflexivity.
  - unfold UniformWorkload.scale. rewrite add_spec, Elo. reflexivity.
Qed.


(** ** Generation and its reversal *)

Section Generation.

Context {S : Type} `{tw_rng_stream S}.

(** C1.  For both variants, every stream and every counter value,
    [reverseGenerateWorkload] right after [generateWorkload] restores the
    remaining-task counter (the whole object, in fact) and the stream, so
    that the next [generateWorkload] yields the sizes of the first one. *)
Theorem reverse_after_generate_restores `{!Reversible S} (w : Workload.t) (rng : S) :
  is_unsigned (Workload.getRemainingTasks w) ->
  let g := Workload.generateWorkload w rng in
  let r := Workload.reverseGenerateWorkload (gen_this g) (gen_rng g) in
  let g' := Workload.generateWorkload (fst r) (snd r) in
  Workload.getRemainingTasks (fst r) = Workload.getRemainingTasks w /\
  fst r = w /\
  snd r = rng /\
  procSize g' = procSize g /\
  commSize g' = commSize g.
Proof.
  intros Hn g r g'.
  assert (Hw : fst r = w /\ snd r = rng).
  { subst g' r g. destruct w as [w | w]; simpl in *.
    - unfold ConstantWorkload.getRemainingTasks in Hn.
      rewrite (incr_decr _ Hn). destruct w; auto.
    - rewrite uniform_generate_unfold. simpl.
      unfold UniformWorkload.getRemainingTasks in Hn.
      rewrite (incr_decr _ Hn), !reverse_unif_unif. destruct w; auto. }
  destruct Hw as [Hw Hrng]. subst g'. rewrite Hw, Hrng. auto.
Qed.

(** C2.  [UniformWorkload::generateWorkload] makes exactly two draws, the
    processing-size draw first and the communication-size draw second;
    [reverseGenerateWorkload] makes exactly two reverse draws and adds one
    to the counter: a counter [m] becomes [(m + 1) mod 2^32], which is
    [m + 1] for every [m] below [UINT_MAX = 4294967295].  On a reversible
    stream the first reverse draw undoes the communication draw and the
    second undoes the processing draw. *)
Theorem uniform_draws_and_reverse_draws `{!Reversible S} (w : UniformWorkload.t) (rng : S) :
  let d1 := tw_rand_unif rng in
  let d2 := tw_rand_unif (snd d1) in
  let g := UniformWorkload.generateWorkload w rng in
  let r := UniformWorkload.reverseGenerateWorkload (gen_this g) (gen_rng g) in
  (* the calls made, in order *)
  calls (gen_rng (UniformWorkload.generateWorkload w (fresh rng))) = [call_unif; call_unif] /\
  calls (snd (UniformWorkload.reverseGenerateWorkload w (fresh rng))) =
    [call_reverse_unif; call_reverse_unif] /\
  (* which draw feeds which size *)
  procSize g =
    UniformWorkload.scale (UniformWorkload.m_MinProcSize w) (UniformWorkload.m_MaxProcSize w)
      (fst d1) /\
  commSize g =
    UniformWorkload.scale (UniformWorkload.m_MinCommSize w) (UniformWorkload.m_MaxCommSize w)
      (fst d2) /\
  gen_rng g = snd d2 /\
  (* the reverse draws undo them last-drawn first *)
  tw_rand_reverse_unif (gen_rng g) = snd d1 /\
  tw_rand_reverse_unif (tw_rand_reverse_unif (gen_rng g)) = rng /\
  snd r = tw_rand_reverse_unif (tw_rand_reverse_unif (gen_rng g)) /\
  (* the counter goes up by one *)
  UniformWorkload.m_RemainingTasks (fst r) =
    (UniformWorkload.m_RemainingTasks (gen_this g) + 1) mod 2 ^ 32 /\
  (forall (w' : UniformWorkload.t) (rng' : S),
     let r' := UniformWorkload.reverseGenerateWorkload w' rng' in
     UniformWorkload.m_RemainingTasks (fst r') =
       (UniformWorkload.m_RemainingTasks w' + 1) mod 2 ^ 32 /\
     (0 <= UniformWorkload.m_RemainingTasks w' < 4294967295 ->
      UniformWorkload.m_RemainingTasks (fst r') = UniformWorkload.m_RemainingTasks w' + 1) /\
     (UniformWorkload.m_RemainingTasks w' = 4294967295 ->
      UniformWorkload.m_RemainingTasks (fst r') = 0)) /\
  (0 < UniformWorkload.m_RemainingTasks w < 2 ^ 32 ->
   UniformWorkload.m_RemainingTasks (gen_this g) = UniformWorkload.m_RemainingTasks w - 1 /\
   UniformWorkload.m_RemainingTasks (fst r) = UniformWorkload.m_RemainingTasks w).
Proof.
  intros d1 d2 g r. subst r g d2 d1.
  rewrite !uniform_generate_unfold. cbn [gen_this gen_rng procSize commSize fst snd
    UniformWorkload.reverseGenerateWorkload UniformWorkload.m_RemainingTasks].
  rewrite !reverse_unif_unif.
  do 8 (split; [reflexivity |]).
  split; [| split].
  - reflexivity.
  - intros w' rng'. cbv zeta.
    cbn [fst UniformWorkload.reverseGenerateWorkload UniformWorkload.m_RemainingTasks].
    unfold incr, wrap. split; [reflexivity |]. split.
    + intros Hm. apply Z.mod_small. lia.
    + intros ->. reflexivity.
  - intros Hn. unfold incr, decr, wrap.
    rewrite (Z.mod_small (UniformWorkload.m_RemainingTasks w - 1)) by lia.
    split; [reflexivity |].
    replace (UniformWorkload.m_RemainingTasks w - 1 + 1)
      with (UniformWorkload.m_RemainingTasks w) by lia.
    apply Z.mod_small. lia.
Qed.

(** C3.  A constant workload with [n > 0] remaining tasks hands out its two
    constant sizes, takes the counter from [n] to [n - 1], and makes no
    draw: the stream is left as it was and no primitive is called on it. *)
Theorem constant_generate (w : ConstantWorkload.t) (rng : S) (n : unsigned) (p c : float) :
  ConstantWorkload.m_ConstantProcSize w = p ->
  ConstantWorkload.m_ConstantCommSize w = c ->
  ConstantWorkload.m_RemainingTasks w = n ->
  0 < n < 2 ^ 32 ->
  let g := ConstantWorkload.generateWorkload w rng in
  procSize g = p /\
  commSize g = c /\
  ConstantWorkload.getRemainingTasks (gen_this g) = n - 1 /\
  gen_rng g = rng /\
  calls (gen_rng (ConstantWorkload.generateWorkload w (fresh rng))) = [].
Proof.
  intros Hp Hc Hn Hrange g. subst g. simpl.
  rewrite Hp, Hc, Hn, (decr_positive _ Hrange). auto.
Qed.

(** C9.  With the counter at 0, [generateWorkload] of either variant still
    returns (the function has no failing path): the counter wraps to
    [2^32 - 1], so a caller testing [getRemainingTasks () > 0] goes on. *)
Theorem generate_at_zero_wraps (w : Workload.t) (rng : S) :
  Workload.getRemainingTasks w = 0 ->
  let g := Workload.generateWorkload w rng in
  Workload.getRemainingTasks (gen_this g) = 4294967295 /\
  (0 <? Workload.getRemainingTasks (gen_this g)) = true.
Proof.
  intros Hn g. subst g.
  destruct w as [w | w]; simpl in *.
  - unfold ConstantWorkload.getRemainingTasks in *. simpl. rewrite Hn. split; reflexivity.
  - rewrite uniform_generate_unfold.
    unfold UniformWorkload.getRemainingTasks in *. simpl. rewrite Hn. split; reflexivity.
Qed.

(** C10.  Neither operation touches the policy parameters or the dynamic
    type of the object, in one call and hence in any sequence of calls. *)
Theorem calls_keep_parameters (w : Workload.t) (rng : S) :
  Workload.parameters (gen_this (Workload.generateWorkload w rng)) = Workload.parameters w /\
  Workload.same_variant (gen_this (Workload.generateWorkload w rng)) w = true /\
  Workload.parameters (fst (Workload.reverseGenerateWorkload w rng)) = Workload.parameters w /\
  Workload.same_variant (fst (Workload.reverseGenerateWorkload w rng)) w = true /\
  forall cs : list workload_call,
    Workload.parameters (fst (perform cs w rng)) = Workload.parameters w.
Proof.
  repeat split;
    auto using generate_parameters, reverse_parameters,
               generate_same_variant, reverse_same_variant.
  intros cs. revert w rng.
  induction cs as [| [|] cs IH]; intros w rng; simpl.
  - reflexivity.
  - rewrite IH. apply generate_parameters.
  - pose proof (reverse_parameters w rng) as Hr.
    destruct (Workload.reverseGenerateWorkload w rng) as [w' rng'].
    rewrite IH. exact Hr.
Qed.

End Generation.

(** *** Constructors *)

(** A constructor runs its checks in order and stops at the first
    [ispd_error]; these lemmas read the outcome off the checks. *)
Lemma constant_new_succeeds (n : unsigned) (p c : float) :
  succeeds (ConstantWorkload.new n p c) = (negb (p <=? 0) && negb (c <=? 0))%float.
Proof.
  unfold ConstantWorkload.new.
  destruct (p <=? 0)%float; [reflexivity |].
  destruct (c <=? 0)%float; reflexivity.
Qed.

Lemma uniform_new_succeeds (n : unsigned) (a b c d : float) :
  succeeds (UniformWorkload.new n a b c d) =
  (negb (a <=? 0) && negb (b <=? 0) && negb (c <=? 0) && negb (d <=? 0))%float.
Proof.
  unfold UniformWorkload.new.
  destruct (a <=? 0)%float; [reflexivity |].
  destruct (b <=? 0)%float; [reflexivity |].
  destruct (c <=? 0)%float; [reflexivity |].
  destruct (d <=? 0)%float; reflexivity.
Qed.

(** Away from NaN, "not [<= 0]" is "strictly positive". *)
Lemma not_le_zero_positive (x : float) :
  is_nan x = false -> (x <=? 0)%float = false -> (0 <? x)%float = true.
Proof.
  unfold is_nan. rewrite eqb_spec, leb_spec, ltb_spec, Prim2SF_zero.
  destruct (Prim2SF x) as [s | [|] | | [|] m e]; try discriminate; reflexivity.
Qed.

Lemma positive_not_le_zero (x : float) :
  (0 <? x)%float = true -> (x <=? 0)%float = false.
Proof.
  rewrite leb_spec, ltb_spec, Prim2SF_zero.
  destruct (Prim2SF x) as [s | [|] | | [|] m e]; try discriminate; reflexivity.
Qed.

(** For sizes that are numbers the constructor succeeds exactly when both
    are strictly positive. *)
Lemma constant_new_succeeds_on_numbers (n : unsigned) (p c : float) :
  is_nan p = false -> is_nan c = false ->
  succeeds (ConstantWorkload.new n p c) = ((0 <? p) && (0 <? c))%float.
Proof.
  intros Hp Hc. rewrite constant_new_succeeds.
  destruct (p <=? 0)%float eqn:Ep, (c <=? 0)%float eqn:Ec; cbn [negb andb].
  - destruct (0 <? p)%float eqn:Lp; [| reflexivity].
    apply positive_not_le_zero in Lp. congruence.
  - destruct (0 <? p)%float eqn:Lp; [| reflexivity].
    apply positive_not_le_zero in Lp. congruence.
  - rewrite (not_le_zero_positive p Hp Ep).
    destruct (0 <? c)%float eqn:Lc; [| reflexivity].
    apply positive_not_le_zero in Lc. congruence.
  - rewrite (not_le_zero_positive p Hp Ep), (not_le_zero_positive c Hc Ec). reflexivity.
Qed.

(** C5.  A non-positive size is refused, but success is not "both sizes
    strictly positive": the test [x <= 0.0] is false on a NaN, so a NaN size
    passes both checks although [0 < NaN] does not hold. *)
Theorem constant_new_accepts_nan :
  ConstantWorkload.new 100 nan 80 =
    Ok {| ConstantWorkload.m_RemainingTasks := 100;
          ConstantWorkload.m_ConstantProcSize := nan;
          ConstantWorkload.m_ConstantCommSize := 80 |} /\
  (0 <? nan)%float = false /\
  (forall (n : unsigned) (p c : float),
      ((p <=? 0) || (c <=? 0))%float = true ->
      succeeds (ConstantWorkload.new n p c) = false).
Proof.
  repeat split.
  intros n p c Hpc. rewrite constant_new_succeeds.
  destruct (p <=? 0)%float; [reflexivity |].
  destruct (c <=? 0)%float; [reflexivity | discriminate].
Qed.

(** C6.  A bound that is [<= 0] makes the constructor end in [ispd_error]:
    no object is built, so nothing can be generated from it.  With
    [minProcSize = 0.0] it is the first check that fires. *)
Theorem uniform_new_rejects_nonpositive (n : unsigned) (a b c d : float) :
  ((a <=? 0) || (b <=? 0) || (c <=? 0) || (d <=? 0))%float = true ->
  (exists diagnostic, UniformWorkload.new n a b c d = Fatal diagnostic) /\
  UniformWorkload.new n 0 b c d =
    Fatal "Minimum processing size must be positive (Specified minimum processing size: %lf).".
Proof.
  intros Hle. split; [| reflexivity].
  pose proof (uniform_new_succeeds n a b c d) as Hs.
  destruct (UniformWorkload.new n a b c d) as [w | diagnostic].
  - simpl in Hs. exfalso.
    destruct (a <=? 0)%float, (b <=? 0)%float, (c <=? 0)%float, (d <=? 0)%float;
      simpl in *; discriminate.
  - exists diagnostic. reflexivity.
Qed.

(** C7, as the code has it.  The constructor compares each bound with 0 and
    nothing else: bounds none of which is [<= 0] are accepted and stored as
    given, whatever the order of a minimum and its maximum. *)
Theorem uniform_new_checks_signs_only (n : unsigned) (a b c d : float) :
  (a <=? 0)%float = false ->
  (b <=? 0)%float = false ->
  (c <=? 0)%float = false ->
  (d <=? 0)%float = false ->
  UniformWorkload.new n a b c d =
    Ok {| UniformWorkload.m_RemainingTasks := n;
          UniformWorkload.m_MinProcSize := a;
          UniformWorkload.m_MaxProcSize := b;
          UniformWorkload.m_MinCommSize := c;
          UniformWorkload.m_MaxCommSize := d |}.
Proof.
  intros Ha Hb Hc Hd. unfold UniformWorkload.new.
  rewrite Ha, Hb, Hc, Hd. reflexivity.
Qed.

(** C7 as stated fails: positive bounds with both maxima below their minima
    are accepted. *)
Lemma uniform_new_accepts_max_below_min :
  (0 <? 1)%float = true /\ (1 <? 2)%float = true /\
  UniformWorkload.new 10 2 1 2 1 =
    Ok {| UniformWorkload.m_RemainingTasks := 10;
          UniformWorkload.m_MinProcSize := 2;
          UniformWorkload.m_MaxProcSize := 1;
          UniformWorkload.m_MinCommSize := 2;
          UniformWorkload.m_MaxCommSize := 1 |}.
Proof. repeat split. Qed.

(** *** Sizes of a uniform workload *)

Lemma uniform_new_Ok (n : unsigned) (a b c d : float) (w : UniformWorkload.t) :
  UniformWorkload.new n a b c d = Ok w ->
  (a <=? 0)%float = false /\ (b <=? 0)%float = false /\
  (c <=? 0)%float = false /\ (d <=? 0)%float = false /\
  w = {| UniformWorkload.m_RemainingTasks := n;
         UniformWorkload.m_MinProcSize := a;
         UniformWorkload.m_MaxProcSize := b;
         UniformWorkload.m_MinCommSize := c;
         UniformWorkload.m_MaxCommSize := d |}.
Proof.
  unfold UniformWorkload.new, ispd_error.
  destruct (a <=? 0)%float; [discriminate |].
  destruct (b <=? 0)%float; [discriminate |].
  destruct (c <=? 0)%float; [discriminate |].
  destruct (d <=? 0)%float; [discriminate |].
  intros [= <-]. auto.
Qed.

(** C4, as the code has it.  For a uniform workload the constructor
    accepted, with finite bounds, each minimum [<=] its maximum, and both
    draws in [[0, 1)], the two generated sizes lie within their bounds, in
    binary64 arithmetic with its roundings. *)
Theorem uniform_generate_within_bounds {S : Type} `{tw_rng_stream S}
    (n : unsigned) (a b c d : float) (w : UniformWorkload.t) (rng : S) :
  UniformWorkload.new n a b c d = Ok w ->
  (a <=? b)%float = true -> (b <? infinity)%float = true ->
  (c <=? d)%float = true -> (d <? infinity)%float = true ->
  (0 <=? fst (tw_rand_unif rng))%float = true ->
  (fst (tw_rand_unif rng) <? 1)%float = true ->
  (0 <=? fst (tw_rand_unif (snd (tw_rand_unif rng))))%float = true ->
  (fst (tw_rand_unif (snd (tw_rand_unif rng))) <? 1)%float = true ->
  let g := UniformWorkload.generateWorkload w rng in
  (a <=? procSize g)%float = true /\ (procSize g <=? b)%float = true /\
  (c <=? commSize g)%float = true /\ (commSize g <=? d)%float = true.
Proof.
  intros Hnew Hab Hb Hcd Hd Hu1 Hu1' Hu2 Hu2' g. subst g.
  apply uniform_new_Ok in Hnew. destruct Hnew as (Ha0 & _ & Hc0 & _ & ->).
  rewrite uniform_generate_unfold. cbn [procSize commSize
    UniformWorkload.m_MinProcSize UniformWorkload.m_MaxProcSize
    UniformWorkload.m_MinCommSize UniformWorkload.m_MaxCommSize].
  destruct (scale_between a b _ Ha0 Hab Hb Hu1 Hu1') as [Hp1 Hp2].
  destruct (scale_between c d _ Hc0 Hcd Hd Hu2 Hu2') as [Hc1 Hc2].
  auto.
Qed.

(** C4 as stated fails: a draw of exactly 1 satisfies [0 <= u <= 1], and
    with it the constructed workload [tight_uniform] generates a
    processing size one unit in the last place above its maximum. *)
Lemma uniform_generate_above_max_at_one :
  UniformWorkload.new 1 0x1.8p-52 0x1.0000000000003p+0 0x1.8p-52 0x1.0000000000003p+0 =
    Ok tight_uniform /\
  (0x1.8p-52 <=? 0x1.0000000000003p+0)%float = true /\
  (0 <=? fst (tw_rand_unif ones_tape))%float = true /\
  (fst (tw_rand_unif ones_tape) <=? 1)%float = true /\
  procSize (UniformWorkload.generateWorkload tight_uniform ones_tape) =
    0x1.0000000000004p+0%float /\
  (procSize (UniformWorkload.generateWorkload tight_uniform ones_tape)
     <=? 0x1.0000000000003p+0)%float = false.
Proof. repeat split. Qed.

(** A maximum of [+infinity] passes the constructor too; a draw of 0 then
    gives [0 * infinity], a NaN. *)
Example uniform_generate_nan_at_infinite_max :
  succeeds (UniformWorkload.new 1 1 infinity 1 infinity) = true /\
  UniformWorkload.scale 1 infinity 0 = nan.
Proof. split; reflexivity. Qed.

(** *** Start-up *)

(** C8.  With no registered user [main] ends in [ispd_error] and the
    simulation has not run; with one or more it goes on to [tw_run] and
    returns 0. *)
Theorem main_user_check (users : list Main.User) :
  (users = [] ->
   Main.status (Main.main_from_user_check users) =
     Main.aborted "At least one user must be registered." /\
   Main.simulation_ran (Main.main_from_user_check users) = false) /\
  (users <> [] ->
   Main.status (Main.main_from_user_check users) = Main.returned 0 /\
   Main.simulation_ran (Main.main_from_user_check users) = true).
Proof.
  split.
  - intros ->. split; reflexivity.
  - intros Hne. destruct users as [| u users]; [congruence |].
    unfold Main.main_from_user_check, Main.size.
    change (List.length (u :: users)) with (Datatypes.S (List.length users)).
    rewrite Nat2Z.inj_succ.
    destruct (Z.eqb_spec (Z.succ (Z.of_nat (List.length users))) 0) as [E | _]; [lia |].
    split; reflexivity.
Qed.

(** The registration [main] performs passes the check. *)
Example main_registers_User1 :
  Main.simulation_ran
    (Main.main_from_user_check (Main.registerUser "User1" 100 [])) = true.
Proof. reflexivity. Qed.

(** *** Instances of the theorems *)

Lemma reverse_after_generate_restores_on_tape :
  is_unsigned 3 /\
  fst (Workload.reverseGenerateWorkload
         (gen_this (Workload.generateWorkload (Workload.Uniform some_uniform) quarter_tape))
         (gen_rng (Workload.generateWorkload (Workload.Uniform some_uniform) quarter_tape))) =
  Workload.Uniform some_uniform.
Proof.
  assert (Hn : is_unsigned 3) by (unfold is_unsigned; lia).
  split; [exact Hn |].
  exact (proj1 (proj2
    (reverse_after_generate_restores (Workload.Uniform some_uniform) quarter_tape Hn))).
Defined.

Lemma uniform_draws_and_reverse_draws_on_tape :
  procSize (UniformWorkload.generateWorkload some_uniform quarter_tape) = 12.5%float /\
  position (gen_rng (UniformWorkload.generateWorkload some_uniform quarter_tape)) = 2 /\
  tw_rand_reverse_unif
    (tw_rand_reverse_unif (gen_rng (UniformWorkload.generateWorkload some_uniform quarter_tape))) =
  quarter_tape /\
  UniformWorkload.m_RemainingTasks
    (fst (UniformWorkload.reverseGenerateWorkload some_uniform quarter_tape)) = 4.
Proof.
  pose proof (uniform_draws_and_reverse_draws some_uniform quarter_tape) as P.
  cbv zeta in P.
  destruct P as (_ & _ & Hp & _ & Hrng & _ & Hback & _ & _ & Hincr & _).
  split; [rewrite Hp; reflexivity |].
  split; [rewrite Hrng; reflexivity |].
  split; [exact Hback |].
  apply (proj1 (proj2 (Hincr some_uniform quarter_tape))).
  split; [cbv; discriminate | reflexivity].
Defined.

Lemma constant_generate_on_tape :
  0 < 3 < 2 ^ 32 /\
  procSize (ConstantWorkload.generateWorkload some_constant quarter_tape) = 1000%float /\
  ConstantWorkload.getRemainingTasks
    (gen_this (ConstantWorkload.generateWorkload some_constant quarter_tape)) = 2.
Proof.
  assert (Hn : 0 < 3 < 2 ^ 32) by lia.
  split; [exact Hn |].
  pose proof (constant_generate some_constant quarter_tape 3 1000 80
                eq_refl eq_refl eq_refl Hn) as P.
  cbv zeta in P. destruct P as (Hp & _ & Hr & _).
  split; [exact Hp | exact Hr].
Defined.

Lemma generate_at_zero_wraps_on_tape :
  Workload.getRemainingTasks
    (gen_this (Workload.generateWorkload
                 (Workload.Constant
                    {| ConstantWorkload.m_RemainingTasks := 0;
                       ConstantWorkload.m_ConstantProcSize := 1000;
                       ConstantWorkload.m_ConstantCommSize := 80 |})
                 quarter_tape)) = 4294967295.
Proof.
  exact (proj1 (generate_at_zero_wraps
    (Workload.Constant
       {| ConstantWorkload.m_RemainingTasks := 0;
          ConstantWorkload.m_ConstantProcSize := 1000;
          ConstantWorkload.m_ConstantCommSize := 80 |})
    quarter_tape eq_refl)).
Defined.

Lemma uniform_new_rejects_zero_minimum :
  ((0 <=? 0) || (20 <=? 0) || (1 <=? 0) || (5 <=? 0))%float = true /\
  exists diagnostic, UniformWorkload.new 7 0 20 1 5 = Fatal diagnostic.
Proof.
  split; [reflexivity |].
  exact (proj1 (uniform_new_rejects_nonpositive 7 0 20 1 5 eq_refl)).
Defined.

Lemma uniform_new_accepts_5_3_8_4 :
  (3 <? 5)%float = true /\ (4 <? 8)%float = true /\
  succeeds (UniformWorkload.new 10 5 3 8 4) = true.
Proof.
  split; [reflexivity |]. split; [reflexivity |].
  rewrite (uniform_new_checks_signs_only 10 5 3 8 4 eq_refl eq_refl eq_refl eq_refl).
  reflexivity.
Defined.

Lemma uniform_generate_within_bounds_on_tape :
  (10 <=? procSize (UniformWorkload.generateWorkload some_uniform quarter_tape))%float = true /\
  (procSize (UniformWorkload.generateWorkload some_uniform quarter_tape) <=? 20)%float = true.
Proof.
  pose proof (uniform_generate_within_bounds 3 10 20 1 5 some_uniform quarter_tape
                eq_refl eq_refl eq_refl eq_refl eq_refl eq_refl eq_refl eq_refl eq_refl) as P.
  cbv zeta in P. destruct P as (Hlo & Hhi & _).
  split; [exact Hlo | exact Hhi].
Defined.

(** * Further properties *)

(** ** Runs of generations and of reversals *)

Lemma is_unsigned_wrap (z : Z) : is_unsigned (wrap z).
Proof. unfold is_unsigned, wrap. apply Z.mod_pos_bound. lia. Qed.

Section Runs.

Context {S : Type} `{tw_rng_stream S}.

Lemma generate_counter (w : Workload.t) (rng : S) :
  Workload.getRemainingTasks (gen_this (Workload.generateWorkload w rng)) =
  decr (Workload.getRemainingTasks w).
Proof.
  destruct w as [w | w]; cbn [Workload.generateWorkload gen_this Workload.getRemainingTasks].
  - reflexivity.
  - rewrite uniform_generate_unfold. reflexivity.
Qed.

Lemma reverse_generate_one `{!Reversible S} (w : Workload.t) (rng : S) :
  is_unsigned (Workload.getRemainingTasks w) ->
  Workload.reverseGenerateWorkload
    (gen_this (Workload.generateWorkload w rng))
    (gen_rng (Workload.generateWorkload w rng)) = (w, rng).
Proof.
  intros Hn. destruct w as [w | w]; simpl in *.
  - unfold ConstantWorkload.getRemainingTasks in Hn.
    rewrite (incr_decr _ Hn). destruct w; reflexivity.
  - rewrite uniform_generate_unfold. simpl.
    unfold UniformWorkload.getRemainingTasks in Hn.
    rewrite (incr_decr _ Hn), !reverse_unif_unif. destruct w; reflexivity.
Qed.

Lemma reverse_n_last (k : nat) (w : Workload.t) (rng : S) :
  reverse_n (Datatypes.S k) w rng =
  Workload.reverseGenerateWorkload (fst (reverse_n k w rng)) (snd (reverse_n k w rng)).
Proof.
  revert w rng. induction k as [| k IH]; intros w rng.
  - simpl. destruct (Workload.reverseGenerateWorkload w rng); reflexivity.
  - change (reverse_n (Datatypes.S (Datatypes.S k)) w rng)
      with (let (w', rng') := Workload.reverseGenerateWorkload w rng in
            reverse_n (Datatypes.S k) w' rng').
    change (reverse_n (Datatypes.S k) w rng)
      with (let (w', rng') := Workload.reverseGenerateWorkload w rng in
            reverse_n k w' rng').
    destruct (Workload.reverseGenerateWorkload w rng) as [w' rng']. apply IH.
Qed.

(** X1.  A rollback of any depth: [k] generations followed by [k]
    reversals leave the workload object and the stream as they were, so
    running the [k] generations again hands out the same sizes. *)
Theorem rollback_of_depth_k `{!Reversible S} (k : nat) (w : Workload.t) (rng : S) :
  is_unsigned (Workload.getRemainingTasks w) ->
  let run := generate_n k w rng in
  let back := reverse_n k (fst (snd run)) (snd (snd run)) in
  back = (w, rng) /\
  fst (generate_n k (fst back) (snd back)) = fst run.
Proof.
  intros Hn run back.
  assert (Hback : back = (w, rng)).
  { subst back run. revert w rng Hn.
    induction k as [| k IH]; intros w rng Hn; [reflexivity |].
    rewrite reverse_n_last.
    cbn [generate_n].
    set (g := Workload.generateWorkload w rng).
    specialize (IH (gen_this g) (gen_rng g)).
    destruct (generate_n k (gen_this g) (gen_rng g)) as [sizes left].
    cbn [fst snd] in *. rewrite IH.
    - cbn [fst snd]. apply reverse_generate_one. exact Hn.
    - subst g. rewrite generate_counter. apply is_unsigned_wrap. }
  split; [exact Hback |]. rewrite Hback. reflexivity.
Qed.

(** X2.  Counting down: from [n] remaining tasks, [k <= n] generations
    leave [n - k]; the counter is 0 after exactly [n] generations and
    positive before. *)
Theorem generate_n_counts_down (k : nat) (w : Workload.t) (rng : S) :
  is_unsigned (Workload.getRemainingTasks w) ->
  Z.of_nat k <= Workload.getRemainingTasks w ->
  Workload.getRemainingTasks (fst (snd (generate_n k w rng))) =
    Workload.getRemainingTasks w - Z.of_nat k /\
  List.length (fst (generate_n k w rng)) = k /\
  (Workload.getRemainingTasks (fst (snd (generate_n k w rng))) = 0 <->
   Z.of_nat k = Workload.getRemainingTasks w).
Proof.
  intros Hn Hk.
  assert (Hcount : Workload.getRemainingTasks (fst (snd (generate_n k w rng))) =
                   Workload.getRemainingTasks w - Z.of_nat k /\
                   List.length (fst (generate_n k w rng)) = k).
  { revert w rng Hn Hk. induction k as [| k IH]; intros w rng Hn Hk.
    - simpl. split; [lia | reflexivity].
    - cbn [generate_n].
      set (g := Workload.generateWorkload w rng).
      assert (Hg : Workload.getRemainingTasks (gen_this g) =
                   Workload.getRemainingTasks w - 1).
      { subst g. rewrite generate_counter. apply decr_positive.
        unfold is_unsigned in Hn. lia. }
      specialize (IH (gen_this g) (gen_rng g)).
      destruct (generate_n k (gen_this g) (gen_rng g)) as [sizes left].
      cbn [fst snd List.length] in *.
      destruct IH as [IH1 IH2].
      + rewrite Hg. unfold is_unsigned in *. lia.
      + lia.
      + split; [lia | congruence]. }
  destruct Hcount as [Hc Hl]. repeat split; try assumption; lia.
Qed.

Lemma perform_parameters (cs : list workload_call) (w : Workload.t) (rng : S) :
  Workload.parameters (fst (perform cs w rng)) = Workload.parameters w /\
  Workload.same_variant (fst (perform cs w rng)) w = true.
Proof.
  revert w rng. induction cs as [| [|] cs IH]; intros w rng; cbn [perform].
  - split; [reflexivity | destruct w; reflexivity].
  - destruct (IH (gen_this (Workload.generateWorkload w rng))
                 (gen_rng (Workload.generateWorkload w rng))) as [IH1 IH2].
    rewrite IH1, generate_parameters. split; [reflexivity |].
    pose proof (generate_same_variant w rng) as Hv.
    destruct (fst (perform cs _ _)), (gen_this (Workload.generateWorkload w rng)), w;
      simpl in *; congruence.
  - pose proof (reverse_parameters w rng) as Hp.
    pose proof (reverse_same_variant w rng) as Hv.
    destruct (Workload.reverseGenerateWorkload w rng) as [w' rng'].
    destruct (IH w' rng') as [IH1 IH2].
    cbn [fst] in *. rewrite IH1, Hp. split; [reflexivity |].
    destruct (fst (perform cs w' rng')), w', w; simpl in *; congruence.
Qed.

Lemma perform_constant_stream (cs : list workload_call) (w : ConstantWorkload.t) (rng : S) :
  snd (perform cs (Workload.Constant w) rng) = rng.
Proof.
  revert w. induction cs as [| [|] cs IH]; intros w; cbn [perform]; [reflexivity | |].
  - apply IH.
  - cbn [Workload.reverseGenerateWorkload ConstantWorkload.reverseGenerateWorkload]. apply IH.
Qed.

(** X3.  A constant workload hands out the sizes it was constructed with,
    whatever calls were made on it before: every generated task has the
    same sizes.  Neither the calls before nor the generation move the
    random stream: it is left as it was found. *)
Theorem constant_sizes_after_any_calls (n : unsigned) (p c : float)
    (w0 : ConstantWorkload.t) (cs : list workload_call) (rng : S) :
  ConstantWorkload.new n p c = Ok w0 ->
  let now := perform cs (Workload.Constant w0) rng in
  let g := Workload.generateWorkload (fst now) (snd now) in
  procSize g = p /\ commSize g = c /\ gen_rng g = snd now /\
  snd now = rng /\ gen_rng g = rng.
Proof.
  intros Hnew now g.
  assert (Hw0 : ConstantWorkload.m_ConstantProcSize w0 = p /\
                ConstantWorkload.m_ConstantCommSize w0 = c).
  { unfold ConstantWorkload.new, ispd_error in Hnew.
    destruct (p <=? 0)%float; [discriminate |].
    destruct (c <=? 0)%float; [discriminate |].
    injection Hnew as <-. split; reflexivity. }
  destruct (perform_parameters cs (Workload.Constant w0) rng) as [Hp Hv].
  pose proof (perform_constant_stream cs w0 rng) as Hs.
  fold now in Hp, Hv, Hs. subst g.
  destruct (fst now) as [w | w]; [| discriminate].
  cbn [Workload.parameters] in Hp. injection Hp as Hp1 Hp2.
  destruct Hw0 as [<- <-]. rewrite Hs. cbn. auto.
Qed.

End Runs.

(** ** More on [lo + u * (hi - lo)]: end points and special values *)

Lemma Prim2SF_nan : Prim2SF nan = S754_nan.
Proof. reflexivity. Qed.

(** A float that is not [<= 0] and is below infinity is positive finite. *)
Lemma positive_finite (x : float) :
  (x <=? 0)%float = false -> (x <? infinity)%float = true ->
  exists (m : positive) (e : Z),
    Prim2SF x = S754_finite false m e /\ bounded prec emax m e = true.
Proof.
  rewrite leb_spec, ltb_spec, Prim2SF_zero, Prim2SF_infinity.
  intros Hpos Hfin. pose proof (Prim2SF_valid x) as Vx.
  destruct (Prim2SF x) as [s | [|] | | [|] m e]; try discriminate.
  exists m, e. split; [reflexivity | exact Vx].
Qed.

(** A finite draw that is [>= 0]: a zero or a positive finite float. *)
Lemma finite_draw (u : float) :
  (0 <=? u)%float = true -> (u <? infinity)%float = true ->
  (exists s, Prim2SF u = S754_zero s) \/
  (exists (m : positive) (e : Z), Prim2SF u = S754_finite false m e).
Proof.
  rewrite leb_spec, ltb_spec, Prim2SF_zero, Prim2SF_infinity.
  intros H0 Hfin.
  destruct (Prim2SF u) as [s | [|] | | [|] m e]; try discriminate.
  - left. exists s. reflexivity.
  - right. exists m, e. reflexivity.
Qed.

Lemma zero_draw (u : float) :
  (u =? 0)%float = true -> exists s, Prim2SF u = S754_zero s.
Proof.
  rewrite eqb_spec, Prim2SF_zero.
  destruct (Prim2SF u) as [s | [|] | | [|] m e]; try discriminate.
  intros _. exists s. reflexivity.
Qed.

Lemma nan_float (x : float) : is_nan x = true -> x = nan.
Proof.
  unfold is_nan. rewrite eqb_spec. intros Hx.
  apply Prim2SF_inj. rewrite Prim2SF_nan.
  destruct (Prim2SF x) as [s | [|] | | s m e]; try discriminate; try reflexivity.
  exfalso. unfold SFeqb, SFcompare in Hx.
  rewrite Z.compare_refl in Hx.
  change (Pos.compare_cont Eq m m) with (Pos.compare m m) in Hx.
  rewrite Pos.compare_refl in Hx. destruct s; discriminate.
Qed.

Lemma nan_not_le (x : float) : (nan <=? x)%float = false.
Proof. rewrite leb_spec, Prim2SF_nan. reflexivity. Qed.

Lemma SFsub_same (prec emax : Z) (m : positive) (e : Z) :
  SFsub prec emax (S754_finite false m e) (S754_finite false m e) = S754_zero false.
Proof.
  unfold SFsub, cond_Zopp. rewrite Z.sub_diag. reflexivity.
Qed.

(** The difference of two positive finite floats in order is a zero or a
    positive finite float: it does not overflow. *)
Lemma SFsub_pos_finite (ma mb : positive) (ea eb : Z) :
  bounded prec emax ma ea = true -> bounded prec emax mb eb = true ->
  (F2R (Zpos ma) ea <= F2R (Zpos mb) eb)%R ->
  SF64sub (S754_finite false mb eb) (S754_finite false ma ea) = S754_zero false \/
  exists (md : positive) (ed : Z),
    SF64sub (S754_finite false mb eb) (S754_finite false ma ea) = S754_finite false md ed.
Proof.
  intros Ha Hb Hle.
  destruct (SFsub_pos prec emax prec_ge_1 emax_ge_2 ma mb ea eb Ha Hb Hle)
    as (v & Hnear & Hres & _).
  pose proof (Hnear mb eb Hb) as Hhi.
  pose proof (bounded_lt_emax prec emax prec_ge_1 mb eb Hb) as Hmax.
  pose proof (F2R_pos ma ea) as Hapos.
  assert (Hv : (v <= F2R (Zpos mb) eb)%R) by abs_cases.
  unfold SF64sub.
  destruct (SFsub prec emax (S754_finite false mb eb) (S754_finite false ma ea))
    as [s | s | | s md ed]; cbn [rounds_to] in Hres.
  - left. destruct Hres as [-> _]. reflexivity.
  - destruct Hres as [_ Hres]. lra.
  - contradiction.
  - right. destruct Hres as [-> _]. exists md, ed. reflexivity.
Qed.

(** With equal bounds every finite draw gives the bound itself. *)
Lemma scale_equal_bounds (lo u : float) :
  (lo <=? 0)%float = false -> (lo <? infinity)%float = true ->
  (0 <=? u)%float = true -> (u <? infinity)%float = true ->
  UniformWorkload.scale lo lo u = lo.
Proof.
  intros Hpos Hfin Hu0 Hu1.
  destruct (positive_finite lo Hpos Hfin) as (m & e & Elo & _).
  apply Prim2SF_inj. unfold UniformWorkload.scale.
  rewrite add_spec, mul_spec, sub_spec, Elo.
  unfold SF64sub. rewrite SFsub_same.
  destruct (finite_draw u Hu0 Hu1) as [[s ->] | (mu & eu & ->)]; reflexivity.
Qed.

(** A draw of zero gives the lower bound. *)
Lemma scale_at_zero (lo hi u : float) :
  (lo <=? 0)%float = false -> (lo <=? hi)%float = true -> (hi <? infinity)%float = true ->
  (u =? 0)%float = true ->
  UniformWorkload.scale lo hi u = lo.
Proof.
  intros Hpos Hle Hfin Hu.
  destruct (positive_finite_bounds lo hi Hpos Hle Hfin)
    as (ma & mb & ea & eb & Elo & Ehi & Ba & Bb & HAB).
  destruct (zero_draw u Hu) as [s Eu].
  apply Prim2SF_inj. unfold UniformWorkload.scale.
  rewrite add_spec, mul_spec, sub_spec, Elo, Ehi, Eu.
  destruct (SFsub_pos_finite ma mb ea eb Ba Bb HAB) as [-> | (md & ed & ->)]; reflexivity.
Qed.

(** A NaN bound makes the size a NaN. *)
Lemma scale_nan (lo hi u : float) :
  is_nan lo = true \/ is_nan hi = true -> UniformWorkload.scale lo hi u = nan.
Proof.
  intros Hnan. apply Prim2SF_inj. unfold UniformWorkload.scale.
  rewrite add_spec, mul_spec, sub_spec, Prim2SF_nan.
  destruct Hnan as [Hnan | Hnan]; apply nan_float in Hnan; subst; rewrite Prim2SF_nan.
  - reflexivity.
  - destruct (Prim2SF lo), (Prim2SF u); reflexivity.
Qed.

(** An infinite upper bound: infinity for a positive draw, NaN for zero. *)
Lemma scale_infinite_max (lo u : float) :
  (lo <=? 0)%float = false -> (lo <? infinity)%float = true ->
  (0 <=? u)%float = true -> (u <? infinity)%float = true ->
  UniformWorkload.scale lo infinity u = if (u =? 0)%float then nan else infinity.
Proof.
  intros Hpos Hfin Hu0 Hu1.
  destruct (positive_finite lo Hpos Hfin) as (m & e & Elo & _).
  rewrite eqb_spec, Prim2SF_zero.
  apply Prim2SF_inj. unfold UniformWorkload.scale.
  rewrite add_spec, mul_spec, sub_spec, Elo, Prim2SF_infinity.
  destruct (finite_draw u Hu0 Hu1) as [[s ->] | (mu & eu & ->)].
  - destruct s; reflexivity.
  - reflexivity.
Qed.

Import Star.

(** ** Sizes of a uniform workload at the ends of its range *)

Section UniformEnds.

Context {S : Type} `{tw_rng_stream S}.

(** X4.  A uniform workload constructed with equal finite bounds is a
    constant one: whatever finite draws [>= 0] the stream makes, the sizes
    generated are the bounds themselves. *)
Theorem uniform_equal_bounds_is_constant (n : unsigned) (a c : float)
    (w : UniformWorkload.t) (rng : S) :
  UniformWorkload.new n a a c c = Ok w ->
  (a <? infinity)%float = true -> (c <? infinity)%float = true ->
  (0 <=? fst (tw_rand_unif rng))%float = true ->
  (fst (tw_rand_unif rng) <? infinity)%float = true ->
  (0 <=? fst (tw_rand_unif (snd (tw_rand_unif rng))))%float = true ->
  (fst (tw_rand_unif (snd (tw_rand_unif rng))) <? infinity)%float = true ->
  let g := UniformWorkload.generateWorkload w rng in
  procSize g = a /\ commSize g = c.
Proof.
  intros Hnew Ha Hc Hu1 Hu1' Hu2 Hu2' g. subst g.
  apply uniform_new_Ok in Hnew. destruct Hnew as (Ha0 & _ & Hc0 & _ & ->).
  rewrite uniform_generate_unfold. cbn [procSize commSize
    UniformWorkload.m_MinProcSize UniformWorkload.m_MaxProcSize
    UniformWorkload.m_MinCommSize UniformWorkload.m_MaxCommSize].
  split; apply scale_equal_bounds; assumption.
Qed.

(** X5.  The lower end of the range is attained: with finite bounds in
    order, a draw of zero gives exactly the minimum, in each dimension. *)
Theorem uniform_zero_draw_gives_minimum (n : unsigned) (a b c d : float)
    (w : UniformWorkload.t) (rng : S) :
  UniformWorkload.new n a b c d = Ok w ->
  (a <=? b)%float = true -> (b <? infinity)%float = true ->
  (c <=? d)%float = true -> (d <? infinity)%float = true ->
  let g := UniformWorkload.generateWorkload w rng in
  ((fst (tw_rand_unif rng) =? 0)%float = true -> procSize g = a) /\
  ((fst (tw_rand_unif (snd (tw_rand_unif rng))) =? 0)%float = true -> commSize g = c).
Proof.
  intros Hnew Hab Hb Hcd Hd g. subst g.
  apply uniform_new_Ok in Hnew. destruct Hnew as (Ha0 & _ & Hc0 & _ & ->).
  rewrite uniform_generate_unfold. cbn [procSize commSize
    UniformWorkload.m_MinProcSize UniformWorkload.m_MaxProcSize
    UniformWorkload.m_MinCommSize UniformWorkload.m_MaxCommSize].
  split; intros Hu; apply scale_at_zero; assumption.
Qed.

(** X6.  A NaN bound passes the constructor (its check [x <= 0.0] is
    false) and then every size generated in that dimension is a NaN,
    whatever the draw. *)
Theorem uniform_nan_bound_gives_nan (n : unsigned) (a b c d : float)
    (w : UniformWorkload.t) (rng : S) :
  UniformWorkload.new n a b c d = Ok w ->
  let g := UniformWorkload.generateWorkload w rng in
  (is_nan a = true \/ is_nan b = true -> procSize g = nan) /\
  (is_nan c = true \/ is_nan d = true -> commSize g = nan) /\
  (forall x : float, is_nan x = true -> (x <=? 0)%float = false).
Proof.
  intros Hnew g. subst g.
  apply uniform_new_Ok in Hnew. destruct Hnew as (_ & _ & _ & _ & ->).
  rewrite uniform_generate_unfold. cbn [procSize commSize
    UniformWorkload.m_MinProcSize UniformWorkload.m_MaxProcSize
    UniformWorkload.m_MinCommSize UniformWorkload.m_MaxCommSize].
  split; [| split].
  - apply scale_nan.
  - apply scale_nan.
  - intros x Hx. apply nan_float in Hx. subst x. apply nan_not_le.
Qed.

(** X7.  An infinite maximum passes the constructor.  With a finite
    minimum every positive finite draw then gives [+infinity], and a draw
    of zero gives a NaN ([0 * infinity]). *)
Theorem uniform_infinite_max (n : unsigned) (a c d : float)
    (w : UniformWorkload.t) (rng : S) :
  UniformWorkload.new n a infinity c d = Ok w ->
  (a <? infinity)%float = true ->
  (0 <=? fst (tw_rand_unif rng))%float = true ->
  (fst (tw_rand_unif rng) <? infinity)%float = true ->
  procSize (UniformWorkload.generateWorkload w rng) =
  if (fst (tw_rand_unif rng) =? 0)%float then nan else infinity.
Proof.
  intros Hnew Ha Hu Hu'.
  apply uniform_new_Ok in Hnew. destruct Hnew as (Ha0 & _ & _ & _ & ->).
  rewrite uniform_generate_unfold. cbn [procSize
    UniformWorkload.m_MinProcSize UniformWorkload.m_MaxProcSize].
  apply scale_infinite_max; assumption.
Qed.

End UniformEnds.

(** ** The star model *)

Lemma highest_machine_id_even (ma : unsigned) :
  highest_machine_id ma = 2 * (ma mod 2 ^ 31).
Proof.
  unfold highest_machine_id, wrap.
  change (2 ^ 32) with (2 ^ 31 * 2).
  rewrite Z.mul_mod_distr_r by lia. lia.
Qed.

Lemma nlp_odd (ma : unsigned) : nlp ma = 2 * (ma mod 2 ^ 31) + 1.
Proof.
  unfold nlp. fold (highest_machine_id ma). rewrite highest_machine_id_even.
  unfold wrap. apply Z.mod_small.
  pose proof (Z.mod_pos_bound ma (2 ^ 31) ltac:(lia)). lia.
Qed.

Lemma wrap_small (z : Z) : 0 <= z < 2 ^ 32 -> wrap z = z.
Proof. apply Z.mod_small. Qed.

Lemma wrap64_small (z : Z) : 0 <= z < 2 ^ 64 -> wrap64 z = z.
Proof. apply Z.mod_small. Qed.

(** *** Lists of [tw_lp_settype] *)

Lemma typed_settypes (index : Z -> Z) (lp : Z) (len : nat) :
  typed (settypes index lp len) = ids lp 1 len.
Proof.
  revert lp. induction len as [| len IH]; intros lp; cbn; [reflexivity |].
  rewrite IH. reflexivity.
Qed.

Lemma type_at_settypes (index : Z -> Z) (lp : Z) (len : nat) (id : Z) :
  type_at (settypes index lp len) id =
  if (lp <=? id) && (id <? lp + Z.of_nat len) then lps_type (index id) else None.
Proof.
  revert lp. induction len as [| len IH]; intros lp.
  - cbn [settypes type_at]. destruct (Z.leb_spec lp id), (Z.ltb_spec id (lp + Z.of_nat 0));
      cbn; try reflexivity; lia.
  - cbn [settypes type_at]. rewrite IH.
    destruct (Z.leb_spec (lp + 1) id), (Z.ltb_spec id (lp + 1 + Z.of_nat len)),
      (Z.leb_spec lp id), (Z.ltb_spec id (lp + Z.of_nat (S len))), (Z.eqb_spec lp id);
      cbn [andb]; try lia; try reflexivity.
    + destruct (lps_type (index id)); reflexivity.
    + subst. reflexivity.
Qed.

Lemma typed_app (cs cs' : list call) : typed (cs ++ cs') = (typed cs ++ typed cs')%list.
Proof.
  induction cs as [| c cs IH]; [reflexivity |].
  destruct c; cbn; rewrite ?IH; reflexivity.
Qed.

Lemma ids_seq (len : nat) : ids 0 1 len = map Z.of_nat (seq 0 len).
Proof.
  assert (Hgen : forall from : nat, ids (Z.of_nat from) 1 len = map Z.of_nat (seq from len)).
  { induction len as [| len IH]; intros from; cbn; [reflexivity |].
    replace (Z.of_nat from + 1) with (Z.of_nat (S from)) by lia.
    rewrite IH. reflexivity. }
  apply (Hgen O).
Qed.

(** *** The sequential branch *)

Lemma type_pairs_spec (j fuel : nat) (i n : Z) :
  (j < fuel)%nat -> Z.odd i = true -> 0 <= i -> n = i + 2 * Z.of_nat j -> n < 2 ^ 32 ->
  type_pairs fuel i n = Some (settypes parity_index i (2 * j)).
Proof.
  revert fuel i. induction j as [| j IH]; intros fuel i Hfuel Hodd Hi Hn Hmax.
  - destruct fuel as [| fuel]; [lia |]. cbn [type_pairs].
    destruct (Z.ltb_spec i n); [lia | reflexivity].
  - destruct fuel as [| fuel]; [lia |]. cbn [type_pairs].
    destruct (Z.ltb_spec i n); [| lia].
    rewrite (wrap_small (i + 2)), (wrap_small (i + 1)) by lia.
    rewrite (IH fuel (i + 2)); try lia.
    + replace (2 * S j)%nat with (S (S (2 * j))) by lia.
      cbn [settypes].
      assert (Hp1 : parity_index i = 1) by (unfold parity_index; rewrite Hodd; reflexivity).
      assert (Hp2 : parity_index (i + 1) = 2).
      { unfold parity_index. rewrite Z.odd_add, Hodd. reflexivity. }
      rewrite Hp1, Hp2. replace (i + 1 + 1) with (i + 2) by lia. reflexivity.
    + rewrite Z.odd_add, Hodd. reflexivity.
Qed.

Lemma lps_type_parity (lp : Z) :
  lp <> 0 -> lps_type (parity_index lp) = Some (star_type lp).
Proof.
  intros Hlp. unfold parity_index, star_type.
  destruct (Z.eqb_spec lp 0); [contradiction |]. destruct (Z.odd lp); reflexivity.
Qed.

Lemma sequential_calls (machine_amount : unsigned) (fuel : nat) :
  machine_amount mod 2 ^ 31 < Z.of_nat fuel ->
  sequential fuel machine_amount =
  Some (tw_define_lps (nlp machine_amount) :: tw_lp_settype 0 0
        :: settypes parity_index 1 (2 * Z.to_nat (machine_amount mod 2 ^ 31))).
Proof.
  intros Hfuel. unfold sequential.
  pose proof (Z.mod_pos_bound machine_amount (2 ^ 31) ltac:(lia)) as Hh.
  pose proof (nlp_odd machine_amount) as Hnlp.
  rewrite (type_pairs_spec (Z.to_nat (machine_amount mod 2 ^ 31)) fuel 1 (nlp machine_amount));
    try lia; reflexivity.
Qed.

Lemma type_at_sequential_calls (machine_amount : unsigned) (lp : Z) :
  type_at (tw_define_lps (nlp machine_amount) :: tw_lp_settype 0 0
           :: settypes parity_index 1 (2 * Z.to_nat (machine_amount mod 2 ^ 31))) lp =
  if (0 <=? lp) && (lp <? nlp machine_amount) then Some (star_type lp) else None.
Proof.
  pose proof (Z.mod_pos_bound machine_amount (2 ^ 31) ltac:(lia)) as Hh.
  set (h := machine_amount mod 2 ^ 31) in *.
  assert (Hnlp : nlp machine_amount = 2 * h + 1) by apply nlp_odd.
  cbn [type_at]. rewrite type_at_settypes.
  replace (Z.of_nat (2 * Z.to_nat h)) with (2 * h) by lia.
  rewrite Hnlp.
  destruct (Z.leb_spec 1 lp), (Z.ltb_spec lp (1 + 2 * h)), (Z.leb_spec 0 lp),
    (Z.ltb_spec lp (2 * h + 1)), (Z.eqb_spec 0 lp); cbn [andb lps_type]; try lia;
    try reflexivity.
  - rewrite lps_type_parity by lia. reflexivity.
  - subst lp. reflexivity.
Qed.

(** X8.  The sequential branch types every logical process from 0 to
    [nlp - 1] once, in order: 0 is the master, the odd ones are links and
    the other even ones machines; nothing else is typed, and no logical
    process is a switch or a dummy. *)
Theorem sequential_types (machine_amount : unsigned) (fuel : nat) :
  machine_amount mod 2 ^ 31 < Z.of_nat fuel ->
  exists cs : list call,
    sequential fuel machine_amount = Some cs /\
    typed cs = map Z.of_nat (seq 0 (Z.to_nat (nlp machine_amount))) /\
    forall lp : Z,
      type_at cs lp =
      if (0 <=? lp) && (lp <? nlp machine_amount) then Some (star_type lp) else None.
Proof.
  intros Hfuel.
  pose proof (Z.mod_pos_bound machine_amount (2 ^ 31) ltac:(lia)) as Hh.
  eexists. split; [apply sequential_calls; exact Hfuel |]. split.
  - cbn [typed]. rewrite typed_settypes, nlp_odd.
    replace (Z.to_nat (2 * (machine_amount mod 2 ^ 31) + 1))
      with (S (2 * Z.to_nat (machine_amount mod 2 ^ 31))) by lia.
    rewrite <- ids_seq. reflexivity.
  - apply type_at_sequential_calls.
Qed.

(** *** The registration *)

Lemma collect_slaves_spec (j fuel : nat) (id highest : Z) :
  (j < fuel)%nat -> 0 <= id -> highest + 2 = id + 2 * Z.of_nat j -> highest + 2 < 2 ^ 64 ->
  collect_slaves fuel id highest = Some (ids id 2 j).
Proof.
  revert fuel id. induction j as [| j IH]; intros fuel id Hfuel Hid Hj Hmax;
    (destruct fuel as [| fuel]; [lia |]); cbn [collect_slaves ids].
  - destruct (Z.leb_spec id highest); [lia | reflexivity].
  - destruct (Z.leb_spec id highest); [| lia].
    rewrite (wrap64_small (id + 2)) by lia.
    rewrite (IH fuel (id + 2)) by lia. reflexivity.
Qed.

Lemma register_links_spec (j fuel : nat) (id highest : Z) :
  (j < fuel)%nat -> 0 <= id -> highest + 2 = id + 2 * Z.of_nat j -> highest + 2 < 2 ^ 64 ->
  register_links fuel id highest =
  Some (map (fun id => registerLink id 0 (id + 1)) (ids id 2 j)).
Proof.
  revert fuel id. induction j as [| j IH]; intros fuel id Hfuel Hid Hj Hmax;
    (destruct fuel as [| fuel]; [lia |]); cbn [register_links ids map].
  - destruct (Z.leb_spec id highest); [lia | reflexivity].
  - destruct (Z.leb_spec id highest); [| lia].
    rewrite (wrap64_small (id + 2)), (wrap64_small (id + 1)) by lia.
    rewrite (IH fuel (id + 2)) by lia. reflexivity.
Qed.

Lemma register_machines_spec (j fuel : nat) (id highest : Z) :
  (j < fuel)%nat -> 0 <= id -> highest + 2 = id + 2 * Z.of_nat j -> highest + 2 < 2 ^ 64 ->
  register_machines fuel id highest = Some (map registerMachine (ids id 2 j)).
Proof.
  revert fuel id. induction j as [| j IH]; intros fuel id Hfuel Hid Hj Hmax;
    (destruct fuel as [| fuel]; [lia |]); cbn [register_machines ids map].
  - destruct (Z.leb_spec id highest); [lia | reflexivity].
  - destruct (Z.leb_spec id highest); [| lia].
    rewrite (wrap64_small (id + 2)) by lia.
    rewrite (IH fuel (id + 2)) by lia. reflexivity.
Qed.

(** X9.  With a machine amount that does not make [machine_amount * 2]
    wrap to 0, the registration ends and builds a star: one user, the
    master 0 with the machines [2, 4, ..., 2h] as slaves, a link [2k - 1]
    from the master to the machine [2k] for each of them, and these
    machines. *)
Theorem registration_star (machine_amount : unsigned) (fuel : nat) :
  0 < machine_amount mod 2 ^ 31 < Z.of_nat fuel ->
  let h := Z.to_nat (machine_amount mod 2 ^ 31) in
  registration fuel machine_amount =
  Some (registerUser "User1" 100
        :: registerMaster 0 (ids 2 2 h)
        :: map (fun id => registerLink id 0 (id + 1)) (ids 1 2 h)
        ++ map registerMachine (ids 2 2 h))%list.
Proof.
  intros Hfuel h. unfold registration, highest_link_id.
  rewrite highest_machine_id_even.
  pose proof (Z.mod_pos_bound machine_amount (2 ^ 31) ltac:(lia)) as Hh.
  rewrite (wrap64_small (2 * (machine_amount mod 2 ^ 31) - 1)) by lia.
  rewrite (collect_slaves_spec h), (register_links_spec h), (register_machines_spec h);
    subst h; try lia.
  reflexivity.
Qed.

Lemma highest_link_id_wraps (machine_amount : unsigned) :
  machine_amount mod 2 ^ 31 = 0 ->
  highest_link_id machine_amount = 18446744073709551615.
Proof.
  intros Hzero. unfold highest_link_id. rewrite highest_machine_id_even, Hzero. reflexivity.
Qed.

Lemma register_links_stuck (fuel : nat) (link_id : Z) :
  0 <= link_id < 2 ^ 64 ->
  register_links fuel link_id 18446744073709551615 = None.
Proof.
  revert link_id.
  induction fuel as [| fuel IH]; intros link_id Hid; cbn [register_links]; [reflexivity |].
  destruct (Z.leb_spec link_id 18446744073709551615); [| lia].
  rewrite IH; [reflexivity |]. apply Z.mod_pos_bound. lia.
Qed.

(** X10.  When [machine_amount * 2] wraps to 0 (a machine amount of 0 or
    [2^31]), [highest_link_id] is [2^64 - 1] and the loop that registers
    the links never reaches its end: no number of iterations lets the
    registration finish. *)
Theorem registration_does_not_end (machine_amount : unsigned) (fuel : nat) :
  machine_amount mod 2 ^ 31 = 0 ->
  highest_link_id machine_amount = 18446744073709551615 /\
  register_links fuel 1 (highest_link_id machine_amount) = None /\
  registration fuel machine_amount = None.
Proof.
  intros Hzero.
  pose proof (highest_link_id_wraps machine_amount Hzero) as Hhi.
  split; [exact Hhi |]. rewrite Hhi. split; [apply register_links_stuck; lia |].
  unfold registration. rewrite Hhi, register_links_stuck by lia.
  destruct (collect_slaves fuel 2 (highest_machine_id machine_amount)); reflexivity.
Qed.

Lemma registered_app (cs cs' : list call) (id : Z) :
  registered (cs ++ cs') id =
  match registered cs' id with Some t => Some t | None => registered cs id end.
Proof.
  induction cs as [| c cs IH]; cbn [app registered].
  - destruct (registered cs' id); reflexivity.
  - rewrite IH. destruct (registered cs' id); reflexivity.
Qed.

Lemma even_sub_2 (x : Z) : Z.even (x - 2) = Z.even x.
Proof. rewrite Z.even_sub. destruct (Z.even x); reflexivity. Qed.

Lemma registered_links (from : Z) (len : nat) (id : Z) :
  registered (map (fun id => registerLink id 0 (id + 1)) (ids from 2 len)) id =
  if (from <=? id) && (id <? from + 2 * Z.of_nat len) && Z.even (id - from)
  then Some link else None.
Proof.
  revert from. induction len as [| len IH]; intros from; cbn [ids map registered].
  - destruct (Z.leb_spec from id), (Z.ltb_spec id (from + 2 * Z.of_nat 0));
      cbn; try reflexivity; lia.
  - rewrite IH.
    replace (id - (from + 2)) with (id - from - 2) by lia.
    rewrite (even_sub_2 (id - from)).
    destruct (Z.leb_spec (from + 2) id), (Z.ltb_spec id (from + 2 + 2 * Z.of_nat len)),
      (Z.leb_spec from id), (Z.ltb_spec id (from + 2 * Z.of_nat (S len))),
      (Z.eqb_spec from id); cbn [andb]; try lia; try reflexivity;
      try (destruct (Z.even (id - from)); reflexivity).
    + subst. rewrite Z.sub_diag. reflexivity.
    + assert (id = from + 1) by lia. subst id.
      replace (from + 1 - from) with 1 by lia. reflexivity.
Qed.

Lemma registered_machines (from : Z) (len : nat) (id : Z) :
  registered (map registerMachine (ids from 2 len)) id =
  if (from <=? id) && (id <? from + 2 * Z.of_nat len) && Z.even (id - from)
  then Some machine else None.
Proof.
  revert from. induction len as [| len IH]; intros from; cbn [ids map registered].
  - destruct (Z.leb_spec from id), (Z.ltb_spec id (from + 2 * Z.of_nat 0));
      cbn; try reflexivity; lia.
  - rewrite IH.
    replace (id - (from + 2)) with (id - from - 2) by lia.
    rewrite (even_sub_2 (id - from)).
    destruct (Z.leb_spec (from + 2) id), (Z.ltb_spec id (from + 2 + 2 * Z.of_nat len)),
      (Z.leb_spec from id), (Z.ltb_spec id (from + 2 * Z.of_nat (S len))),
      (Z.eqb_spec from id); cbn [andb]; try lia; try reflexivity;
      try (destruct (Z.even (id - from)); reflexivity).
    + subst. rewrite Z.sub_diag. reflexivity.
    + assert (id = from + 1) by lia. subst id.
      replace (from + 1 - from) with 1 by lia. reflexivity.
Qed.

Lemma registered_star (h : nat) (id : Z) :
  registered
    (registerUser "User1" 100
     :: registerMaster 0 (ids 2 2 h)
     :: map (fun id => registerLink id 0 (id + 1)) (ids 1 2 h)
     ++ map registerMachine (ids 2 2 h))%list id =
  if (0 <=? id) && (id <? 2 * Z.of_nat h + 1) then Some (star_type id) else None.
Proof.
  cbn [registered]. rewrite registered_app, registered_machines, registered_links.
  unfold star_type.
  assert (Hpar : Z.even (id - 2) = negb (Z.odd id) /\ Z.even (id - 1) = Z.odd id).
  { rewrite !Z.even_sub, <- !Z.negb_odd. cbn. destruct (Z.odd id); split; reflexivity. }
  destruct Hpar as [-> ->].
  destruct (Z.leb_spec 2 id), (Z.ltb_spec id (2 + 2 * Z.of_nat h)), (Z.leb_spec 1 id),
    (Z.ltb_spec id (1 + 2 * Z.of_nat h)), (Z.leb_spec 0 id),
    (Z.ltb_spec id (2 * Z.of_nat h + 1)), (Z.eqb_spec id 0), (Z.eqb_spec 0 id);
    cbn [andb negb]; try lia;
    try (destruct (Z.odd id) eqn:Hodd; cbn [negb andb]; reflexivity).
  - assert (id = 2 * Z.of_nat h + 1) by lia. subst id.
    rewrite Z.odd_add, Z.odd_mul. reflexivity.
  - assert (id = 1) by lia. subst id. reflexivity.
Qed.

(** X11.  The registration and the sequential branch agree: every
    logical process is given the type of the service registered under its
    identifier, and an identifier has a service exactly when it has a
    logical process. *)
Theorem registered_services_are_typed (machine_amount : unsigned) (fuel : nat)
    (services layout : list call) :
  registration fuel machine_amount = Some services ->
  sequential fuel machine_amount = Some layout ->
  forall id : Z, registered services id = type_at layout id.
Proof.
  intros Hreg Hseq id.
  pose proof (Z.mod_pos_bound machine_amount (2 ^ 31) ltac:(lia)) as Hh.
  destruct (Z.eq_dec (machine_amount mod 2 ^ 31) 0) as [Hzero | Hnz].
  { unfold registration in Hreg.
    rewrite (highest_link_id_wraps machine_amount Hzero), register_links_stuck in Hreg by lia.
    destruct (collect_slaves fuel 2 (highest_machine_id machine_amount)); discriminate. }
  assert (Hfuel : machine_amount mod 2 ^ 31 < Z.of_nat fuel).
  { destruct (Z_lt_le_dec (machine_amount mod 2 ^ 31) (Z.of_nat fuel)) as [| Hle];
      [assumption | exfalso].
    unfold sequential in Hseq.
    assert (Hnone : forall (f : nat) (i : Z), Z.odd i = true -> 0 <= i ->
              i + 2 * Z.of_nat f <= nlp machine_amount -> nlp machine_amount < 2 ^ 32 ->
              type_pairs f i (nlp machine_amount) = None).
    { induction f as [| f IH]; intros i Hodd Hi Hlt Hmax; cbn [type_pairs]; [reflexivity |].
      destruct (Z.ltb_spec i (nlp machine_amount)); [| lia].
      rewrite (wrap_small (i + 2)) by lia.
      rewrite IH; try lia; [reflexivity |].
      rewrite Z.odd_add, Hodd. reflexivity. }
    rewrite Hnone in Hseq; try discriminate; try reflexivity; rewrite ?nlp_odd; lia. }
  rewrite (sequential_calls machine_amount fuel Hfuel) in Hseq.
  injection Hseq as <-. rewrite type_at_sequential_calls.
  unfold registration, highest_link_id in Hreg.
  rewrite highest_machine_id_even in Hreg.
  rewrite (wrap64_small (2 * (machine_amount mod 2 ^ 31) - 1)) in Hreg by lia.
  rewrite (collect_slaves_spec (Z.to_nat (machine_amount mod 2 ^ 31))),
    (register_links_spec (Z.to_nat (machine_amount mod 2 ^ 31))),
    (register_machines_spec (Z.to_nat (machine_amount mod 2 ^ 31))) in Hreg by lia.
  injection Hreg as <-.
  rewrite registered_star, nlp_odd.
  rewrite Z2Nat.id by (apply Hh). reflexivity.
Qed.

(** *** The distributed branch *)

Lemma land_1_even (z : Z) : (Z.land z 1 =? 0) = Z.even z.
Proof.
  change 1 with (Z.ones 1). rewrite Z.land_ones by lia. change (2 ^ 1) with 2.
  rewrite Zeven_mod. reflexivity.
Qed.

Lemma type_node_spec (by_index : bool) (j fuel : nat) (i gid d npp highest : Z) :
  (j < fuel)%nat -> 0 <= i -> npp = i + Z.of_nat j -> npp < 2 ^ 32 ->
  0 <= gid -> gid + Z.of_nat j < 2 ^ 64 -> 0 <= d -> d + Z.of_nat j < 2 ^ 32 ->
  type_node by_index fuel i gid d npp highest =
  Some (settypes (node_index by_index (gid - i) highest) i j, d + above gid j highest).
Proof.
  revert fuel i gid d.
  induction j as [| j IH]; intros fuel i gid d Hfuel Hi Hnpp Hmax Hgid Hgmax Hd Hdmax;
    (destruct fuel as [| fuel]; [lia |]); cbn [type_node settypes].
  - destruct (Z.ltb_spec i npp); [lia |]. unfold above. do 2 f_equal. lia.
  - destruct (Z.ltb_spec i npp); [| lia].
    rewrite (wrap_small (i + 1)), (wrap64_small (gid + 1)) by lia.
    rewrite (IH fuel (i + 1) (gid + 1)); try lia.
    + replace (gid + 1 - (i + 1)) with (gid - i) by lia.
      unfold type_one, node_index at 2.
      replace (gid - i + i) with gid by lia.
      assert (Hcount : (if highest <? gid then wrap (d + 1) else d) + above (gid + 1) j highest =
                       d + above gid (S j) highest).
      { unfold above. destruct (Z.ltb_spec highest gid).
        - rewrite wrap_small by lia. lia.
        - lia. }
      f_equal. f_equal; [| exact Hcount]. f_equal.
      destruct (highest <? gid); [reflexivity |].
      destruct by_index; destruct (Z.land _ 1 =? 0); reflexivity.
    + destruct (highest <? gid); [apply Z.mod_pos_bound |]; lia.
    + destruct (Z.ltb_spec highest gid); [rewrite wrap_small by lia |]; lia.
Qed.

Lemma type_at_cons_other (c : call) (cs : list call) (lp : Z) :
  (forall lp' index, c <> tw_lp_settype lp' index) ->
  type_at (c :: cs) lp = type_at cs lp.
Proof.
  intros Hc. cbn [type_at]. destruct (type_at cs lp); [reflexivity |].
  destruct c; try reflexivity. exfalso. eapply Hc. reflexivity.
Qed.

Lemma type_at_app_info (cs : list call) (count node lp : Z) :
  type_at (cs ++ [ispd_info_dummies count node]) lp = type_at cs lp.
Proof.
  induction cs as [| c cs IH]; [reflexivity |].
  cbn [app type_at]. rewrite IH. reflexivity.
Qed.

Lemma distributed_on_node_0 (machine_amount nlp_per_pe : unsigned) (fuel : nat) :
  1 <= nlp_per_pe < 2 ^ 32 -> nlp_per_pe < Z.of_nat fuel ->
  distributed fuel machine_amount nlp_per_pe 0 =
  Some (tw_define_lps nlp_per_pe :: tw_lp_settype 0 0
        :: settypes (node_index true (-1) (highest_machine_id machine_amount)) 1
             (Z.to_nat (nlp_per_pe - 1))
        ++ [ispd_info_dummies
              (above 0 (Z.to_nat (nlp_per_pe - 1)) (highest_machine_id machine_amount)) 0])%list.
Proof.
  intros Hnpp Hfuel. unfold distributed. cbn [Z.eqb Z.mul].
  rewrite (wrap64_small 0) by lia.
  rewrite (type_node_spec true (Z.to_nat (nlp_per_pe - 1)) fuel 1 0 0 nlp_per_pe); try lia.
  reflexivity.
Qed.

Lemma distributed_on_other_node (machine_amount nlp_per_pe : unsigned) (node : Z) (fuel : nat) :
  1 <= nlp_per_pe < 2 ^ 32 -> 0 < node -> (node + 1) * nlp_per_pe < 2 ^ 64 ->
  nlp_per_pe < Z.of_nat fuel ->
  distributed fuel machine_amount nlp_per_pe node =
  Some (tw_define_lps nlp_per_pe
        :: settypes (node_index false (node * nlp_per_pe) (highest_machine_id machine_amount)) 0
             (Z.to_nat nlp_per_pe)
        ++ [ispd_info_dummies
              (above (node * nlp_per_pe) (Z.to_nat nlp_per_pe)
                 (highest_machine_id machine_amount)) node])%list.
Proof.
  intros Hnpp Hnode Hmax Hfuel. unfold distributed.
  destruct (Z.eqb_spec node 0); [lia |].
  rewrite (wrap64_small (node * nlp_per_pe)) by nia.
  rewrite (type_node_spec false (Z.to_nat nlp_per_pe) fuel 0 (node * nlp_per_pe) 0 nlp_per_pe);
    try lia; try nia.
  replace (node * nlp_per_pe - 0) with (node * nlp_per_pe) by lia.
  reflexivity.
Qed.

Lemma type_at_on_node_0 (machine_amount nlp_per_pe : unsigned) (count i : Z) :
  1 <= nlp_per_pe <= nlp machine_amount ->
  type_at (tw_define_lps nlp_per_pe :: tw_lp_settype 0 0
           :: settypes (node_index true (-1) (highest_machine_id machine_amount)) 1
                (Z.to_nat (nlp_per_pe - 1))
           ++ [ispd_info_dummies count 0])%list i =
  if (0 <=? i) && (i <? nlp_per_pe) then Some (star_type i) else None.
Proof.
  intros Hnpp.
  pose proof (Z.mod_pos_bound machine_amount (2 ^ 31) ltac:(lia)) as Hh.
  pose proof (nlp_odd machine_amount) as Hnlp.
  pose proof (highest_machine_id_even machine_amount) as Hhigh.
  set (highest := highest_machine_id machine_amount) in *.
  rewrite type_at_cons_other by discriminate.
  change (tw_lp_settype 0 0 :: settypes ?f 1 ?n ++ ?l)%list
    with ((tw_lp_settype 0 0 :: settypes f 1 n) ++ l)%list.
  rewrite type_at_app_info. cbn [type_at]. rewrite type_at_settypes.
  rewrite Z2Nat.id by lia.
  destruct (Z.leb_spec 1 i), (Z.ltb_spec i (1 + (nlp_per_pe - 1))), (Z.leb_spec 0 i),
    (Z.ltb_spec i nlp_per_pe), (Z.eqb_spec 0 i); cbn [andb lps_type]; try lia;
    try reflexivity.
  - unfold node_index.
    destruct (Z.ltb_spec highest (-1 + i)); [lia |].
    rewrite land_1_even. unfold star_type.
    destruct (Z.eqb_spec i 0); [lia |].
    rewrite <- Z.negb_odd. destruct (Z.odd i); reflexivity.
  - subst i. reflexivity.
Qed.

Lemma type_at_on_other_node (machine_amount nlp_per_pe : unsigned) (node count i : Z) :
  1 <= nlp_per_pe -> 0 < node ->
  type_at (tw_define_lps nlp_per_pe
           :: settypes (node_index false (node * nlp_per_pe) (highest_machine_id machine_amount))
                0 (Z.to_nat nlp_per_pe)
           ++ [ispd_info_dummies count node])%list i =
  if (0 <=? i) && (i <? nlp_per_pe) then
    Some (if highest_machine_id machine_amount <? node * nlp_per_pe + i
          then dummy else star_type (node * nlp_per_pe + i))
  else None.
Proof.
  intros Hnpp Hnode.
  set (highest := highest_machine_id machine_amount) in *.
  rewrite type_at_cons_other by discriminate.
  rewrite type_at_app_info, type_at_settypes.
  rewrite Z2Nat.id by lia.
  destruct (Z.leb_spec 0 i), (Z.ltb_spec i (0 + nlp_per_pe)), (Z.ltb_spec i nlp_per_pe);
    cbn [andb]; try lia; try reflexivity.
  unfold node_index.
  destruct (Z.ltb_spec highest (node * nlp_per_pe + i)); [reflexivity |].
  rewrite land_1_even. unfold star_type.
  destruct (Z.eqb_spec (node * nlp_per_pe + i) 0); [nia |].
  rewrite <- Z.negb_odd. destruct (Z.odd (node * nlp_per_pe + i)); reflexivity.
Qed.

(** X12.  The distributed branch on a node types its [nlp_per_pe]
    logical processes once each, in order.  The one with global identifier
    [gid = g_tw_mynode * nlp_per_pe + i] is a dummy when [gid] is above
    [highest_machine_id], and otherwise what the star model makes of [gid]:
    the master for 0, a link for an odd and a machine for an even
    identifier.  The count of dummies reported is the number of local
    identifiers above [highest_machine_id]. *)
Theorem distributed_types (machine_amount nlp_per_pe : unsigned) (node : Z) (fuel : nat) :
  1 <= nlp_per_pe <= nlp machine_amount ->
  0 <= node -> (node + 1) * nlp_per_pe < 2 ^ 64 ->
  nlp_per_pe < Z.of_nat fuel ->
  exists cs : list call,
    distributed fuel machine_amount nlp_per_pe node = Some cs /\
    typed cs = map Z.of_nat (seq 0 (Z.to_nat nlp_per_pe)) /\
    (forall i : Z,
       type_at cs i =
       if (0 <=? i) && (i <? nlp_per_pe) then
         Some (if highest_machine_id machine_amount <? node * nlp_per_pe + i
               then dummy else star_type (node * nlp_per_pe + i))
       else None) /\
    In (ispd_info_dummies
          (Z.max 0 (Z.min nlp_per_pe ((node + 1) * nlp_per_pe - nlp machine_amount))) node) cs.
Proof.
  intros Hnpp Hnode Hmax Hfuel.
  pose proof (Z.mod_pos_bound machine_amount (2 ^ 31) ltac:(lia)) as Hh.
  pose proof (nlp_odd machine_amount) as Hnlp.
  pose proof (highest_machine_id_even machine_amount) as Hhigh.
  destruct (Z.eq_dec node 0) as [-> | Hnz].
  - (* node 0: the master, then by index *)
    eexists. split; [apply distributed_on_node_0; lia |]. split; [| split].
    + cbn [typed]. rewrite typed_app, typed_settypes. cbn [typed].
      rewrite app_nil_r.
      replace (Z.to_nat nlp_per_pe) with (S (Z.to_nat (nlp_per_pe - 1))) by lia.
      rewrite <- ids_seq. reflexivity.
    + intros i. rewrite type_at_on_node_0 by exact Hnpp.
      destruct (Z.leb_spec 0 i), (Z.ltb_spec i nlp_per_pe); cbn [andb]; try reflexivity.
      destruct (Z.ltb_spec (highest_machine_id machine_amount) (0 * nlp_per_pe + i)); [lia |].
      reflexivity.
    + right. right. apply in_or_app. right. left. f_equal.
      unfold above. lia.
  - eexists. split; [apply distributed_on_other_node; lia |]. split; [| split].
    + cbn [typed]. rewrite typed_app, typed_settypes. cbn [typed].
      rewrite app_nil_r, ids_seq. reflexivity.
    + intros i. apply type_at_on_other_node; lia.
    + right. apply in_or_app. right. left. f_equal.
      unfold above. rewrite Z2Nat.id by lia. lia.
Qed.

(** X13.  The two branches build the same model: the logical process
    that carries the global identifier [gid] in a distributed run, on the
    node [mapping] gives and at the local index [gid mod nlp_per_pe], has
    the type the sequential branch gives [gid]. *)
Theorem branches_agree (machine_amount nlp_per_pe : unsigned) (gid node : Z) (fuel : nat) :
  1 <= nlp_per_pe <= nlp machine_amount ->
  0 <= gid < nlp machine_amount ->
  mapping nlp_per_pe gid = Some node ->
  nlp machine_amount < Z.of_nat fuel ->
  exists here everywhere : list call,
    distributed fuel machine_amount nlp_per_pe node = Some here /\
    sequential fuel machine_amount = Some everywhere /\
    type_at here (gid mod nlp_per_pe) = type_at everywhere gid.
Proof.
  intros Hnpp Hgid Hmap Hfuel.
  pose proof (Z.mod_pos_bound machine_amount (2 ^ 31) ltac:(lia)) as Hh.
  pose proof (nlp_odd machine_amount) as Hnlp.
  pose proof (highest_machine_id_even machine_amount) as Hhigh.
  unfold mapping in Hmap.
  destruct (Z.eqb_spec nlp_per_pe 0); [lia |]. injection Hmap as <-.
  pose proof (Z.div_mod gid nlp_per_pe ltac:(lia)) as Hdm.
  pose proof (Z.mod_pos_bound gid nlp_per_pe ltac:(lia)) as Hmod.
  assert (Hdiv : 0 <= gid / nlp_per_pe) by (apply Z.div_pos; lia).
  destruct (Z.eq_dec (gid / nlp_per_pe) 0) as [Hzero | Hnz].
  - (* on node 0 *)
    rewrite Hzero. eexists. eexists.
    split; [apply distributed_on_node_0; lia |].
    split; [apply sequential_calls; lia |].
    rewrite type_at_sequential_calls, type_at_on_node_0 by exact Hnpp.
    replace (gid mod nlp_per_pe) with gid by lia.
    destruct (Z.leb_spec 0 gid), (Z.ltb_spec gid nlp_per_pe),
      (Z.ltb_spec gid (nlp machine_amount)); cbn [andb]; try lia.
    reflexivity.
  - eexists. eexists.
    split; [apply distributed_on_other_node; lia |].
    split; [apply sequential_calls; lia |].
    rewrite type_at_sequential_calls, type_at_on_other_node by lia.
    replace (gid / nlp_per_pe * nlp_per_pe + gid mod nlp_per_pe) with gid by lia.
    destruct (Z.leb_spec 0 (gid mod nlp_per_pe)),
      (Z.ltb_spec (gid mod nlp_per_pe) nlp_per_pe),
      (Z.leb_spec 0 gid), (Z.ltb_spec gid (nlp machine_amount)); cbn [andb]; try lia.
    destruct (Z.ltb_spec (highest_machine_id machine_amount) gid); [lia | reflexivity].
Qed.

(** ** Instances of the further properties *)

Lemma rollback_of_depth_k_on_tape :
  is_unsigned 3 /\
  reverse_n 5
    (fst (snd (generate_n 5 (Workload.Uniform some_uniform) quarter_tape)))
    (snd (snd (generate_n 5 (Workload.Uniform some_uniform) quarter_tape))) =
  (Workload.Uniform some_uniform, quarter_tape).
Proof.
  assert (Hn : is_unsigned 3) by (unfold is_unsigned; lia).
  split; [exact Hn |].
  exact (proj1 (rollback_of_depth_k 5 (Workload.Uniform some_uniform) quarter_tape Hn)).
Defined.

Lemma generate_n_counts_down_on_tape :
  is_unsigned 3 /\ Z.of_nat 2 <= 3 /\
  Workload.getRemainingTasks
    (fst (snd (generate_n 2 (Workload.Constant some_constant) quarter_tape))) = 3 - Z.of_nat 2.
Proof.
  assert (Hn : is_unsigned 3) by (unfold is_unsigned; lia).
  assert (Hk : Z.of_nat 2 <= 3) by lia.
  split; [exact Hn |]. split; [exact Hk |].
  exact (proj1 (generate_n_counts_down 2 (Workload.Constant some_constant) quarter_tape Hn Hk)).
Defined.

Lemma constant_sizes_after_any_calls_on_tape :
  ConstantWorkload.new 3 1000 80 = Ok some_constant /\
  procSize
    (Workload.generateWorkload
       (fst (perform [call_generate; call_reverse; call_reverse; call_generate]
               (Workload.Constant some_constant) quarter_tape))
       (snd (perform [call_generate; call_reverse; call_reverse; call_generate]
               (Workload.Constant some_constant) quarter_tape))) = 1000%float /\
  snd (perform [call_generate; call_reverse; call_reverse; call_generate]
         (Workload.Constant some_constant) quarter_tape) = quarter_tape.
Proof.
  split; [reflexivity |].
  pose proof (constant_sizes_after_any_calls 3 1000 80 some_constant
                [call_generate; call_reverse; call_reverse; call_generate]
                quarter_tape eq_refl) as P.
  cbv zeta in P. destruct P as (Hp & _ & _ & Hs & _).
  split; [exact Hp | exact Hs].
Defined.

Lemma uniform_equal_bounds_is_constant_on_tape :
  exists w : UniformWorkload.t,
    UniformWorkload.new 4 7 7 2 2 = Ok w /\
    procSize (UniformWorkload.generateWorkload w quarter_tape) = 7%float /\
    commSize (UniformWorkload.generateWorkload w quarter_tape) = 2%float.
Proof.
  eexists. split; [reflexivity |].
  exact (uniform_equal_bounds_is_constant 4 7 2 _ quarter_tape
           eq_refl eq_refl eq_refl eq_refl eq_refl eq_refl eq_refl).
Defined.

Lemma uniform_zero_draw_gives_minimum_on_tape :
  procSize (UniformWorkload.generateWorkload some_uniform zeros_tape) = 10%float.
Proof.
  exact (proj1 (uniform_zero_draw_gives_minimum 3 10 20 1 5 some_uniform zeros_tape
                  eq_refl eq_refl eq_refl eq_refl eq_refl) eq_refl).
Defined.

Lemma uniform_nan_bound_gives_nan_on_tape :
  exists w : UniformWorkload.t,
    UniformWorkload.new 1 nan 5 1 5 = Ok w /\
    procSize (UniformWorkload.generateWorkload w quarter_tape) = nan.
Proof.
  eexists. split; [reflexivity |].
  exact (proj1 (uniform_nan_bound_gives_nan 1 nan 5 1 5 _ quarter_tape eq_refl)
           (or_introl eq_refl)).
Defined.

Lemma uniform_infinite_max_on_tape :
  exists w : UniformWorkload.t,
    UniformWorkload.new 1 1 infinity 1 5 = Ok w /\
    procSize (UniformWorkload.generateWorkload w quarter_tape) = infinity /\
    procSize (UniformWorkload.generateWorkload w zeros_tape) = nan.
Proof.
  eexists. split; [reflexivity |]. split.
  - exact (uniform_infinite_max 1 1 1 5 _ quarter_tape eq_refl eq_refl eq_refl eq_refl).
  - exact (uniform_infinite_max 1 1 1 5 _ zeros_tape eq_refl eq_refl eq_refl eq_refl).
Defined.

Lemma sequential_types_of_10_machines :
  10 mod 2 ^ 31 < Z.of_nat 11 /\
  exists cs : list call,
    sequential 11 10 = Some cs /\
    typed cs = map Z.of_nat (seq 0 (Z.to_nat (nlp 10))) /\
    forall lp : Z,
      type_at cs lp = if (0 <=? lp) && (lp <? nlp 10) then Some (star_type lp) else None.
Proof.
  assert (Hfuel : 10 mod 2 ^ 31 < Z.of_nat 11) by reflexivity.
  split; [exact Hfuel |]. exact (sequential_types 10 11 Hfuel).
Defined.

Lemma registration_star_of_2_machines :
  registration 3 2 =
  Some [registerUser "User1" 100; registerMaster 0 [2; 4];
        registerLink 1 0 2; registerLink 3 0 4; registerMachine 2; registerMachine 4].
Proof.
  exact (registration_star 2 3 (conj eq_refl eq_refl)).
Defined.

Lemma registration_does_not_end_for_0_machines :
  0 mod 2 ^ 31 = 0 /\ registration 1000 0 = None.
Proof.
  split; [reflexivity |].
  exact (proj2 (proj2 (registration_does_not_end 0 1000 eq_refl))).
Defined.

Lemma registered_services_are_typed_for_2_machines :
  exists services layout : list call,
    registration 3 2 = Some services /\ sequential 3 2 = Some layout /\
    forall id : Z, registered services id = type_at layout id.
Proof.
  eexists. eexists. split; [reflexivity |]. split; [reflexivity |].
  exact (registered_services_are_typed 2 3 _ _ eq_refl eq_refl).
Defined.

Lemma distributed_types_on_node_1 :
  exists cs : list call,
    distributed 12 10 11 1 = Some cs /\
    In (ispd_info_dummies 1 1) cs.
Proof.
  destruct (distributed_types 10 11 1 12) as (cs & Hcs & _ & _ & Hinfo).
  - split; [discriminate | discriminate].
  - discriminate.
  - reflexivity.
  - reflexivity.
  - exists cs. split; [exact Hcs | exact Hinfo].
Defined.

Lemma branches_agree_on_gid_13 :
  mapping 11 13 = Some 1 /\
  exists here everywhere : list call,
    distributed 22 10 11 1 = Some here /\
    sequential 22 10 = Some everywhere /\
    type_at here (13 mod 11) = type_at everywhere 13.
Proof.
  split; [reflexivity |].
  apply (branches_agree 10 11 13 1 22).
  - split; discriminate.
  - split; [discriminate | reflexivity].
  - reflexivity.
  - reflexivity.
Defined.
